(** * Parking management: inventory and reservation engine

    A shallow embedding of [src/models.py] and of the route handlers of
    [src/app.py] that create, edit and delete parking lots and that book
    and release parking spots, together with the invariants of the
    persisted tables.

    Modelling conventions.
    - The database is a record of three tables; a table is the list of its
      rows in primary-key order, which is the order in which SQLite scans a
      table for a query without ORDER BY.  A fresh primary key is one more
      than the largest key present in the table.
    - [db.session.commit()] may raise; every handler wraps it in
      [try/except] with a rollback.  The boolean [commit_ok] given to each
      handler says whether the commit goes through; when it does not, the
      persisted state is the one before the call.
    - Python floats (prices, durations, costs) are idealised as exact
      rationals ([Q]); non-finite floats are not represented.  Python's
      [round(x, 2)] is rounding half to even at two decimals.
    - [datetime] values are integers counting microseconds.
    - Strings are ASCII strings. *)

From Stdlib Require Import ZArith QArith Bool List Lia.
From Stdlib Require Import Ascii String Sorted.
From Stdlib Require Import Decimal DecimalString DecimalPos DecimalN.
Import ListNotations.

Local Open Scope Z_scope.

(** ** Python built-ins used by the handlers *)

(** [str.isspace] on one ASCII character. *)
Definition is_space (c : ascii) : bool :=
  let n := nat_of_ascii c in
  ((9 <=? n) && (n <=? 13) || (28 <=? n) && (n <=? 32))%nat.

Fixpoint lstrip (s : string) : string :=
  match s with
  | EmptyString => EmptyString
  | String c t => if is_space c then lstrip t else s
  end.

Fixpoint rstrip (s : string) : string :=
  match s with
  | EmptyString => EmptyString
  | String c t =>
      match rstrip t with
      | EmptyString => if is_space c then EmptyString else String c EmptyString
      | t' => String c t'
      end
  end.

(** [s.strip()] *)
Definition strip (s : string) : string := rstrip (lstrip s).

Definition upper_char (c : ascii) : ascii :=
  let n := nat_of_ascii c in
  if ((97 <=? n) && (n <=? 122))%nat then ascii_of_nat (n - 32) else c.

(** [s.upper()] *)
Fixpoint upper (s : string) : string :=
  match s with
  | EmptyString => EmptyString
  | String c t => String (upper_char c) (upper t)
  end.

(** [s[:3]] *)
Definition first3 (s : string) : string := substring 0 3 s.

(** Truth value of a string: non-empty. *)
Definition truthy (s : string) : bool :=
  match s with EmptyString => false | _ => true end.

Fixpoint zeros (n : nat) : string :=
  match n with O => EmptyString | S k => String "0" (zeros k) end.

(** Left padding with zeros up to [width] characters. *)
Definition zfill (width : nat) (s : string) : string :=
  (zeros (width - String.length s) ++ s)%string.

(** Decimal digits of a natural number, without leading zeros. *)
Definition digits (n : N) : string := NilZero.string_of_uint (N.to_uint n).

(** [f"{n:03d}"]: the sign counts in the width. *)
Definition format_03d (n : Z) : string :=
  if n <? 0 then String "-" (zfill 2 (digits (Z.abs_N n)))
  else zfill 3 (digits (Z.abs_N n)).

(** [range(a, b)] *)
Definition range (a b : Z) : list Z :=
  map (fun i => a + Z.of_nat i) (seq 0 (Z.to_nat (b - a))).

(** Rounding a rational to the nearest integer, ties to even. *)
Definition round_half_even (x : Q) : Z :=
  let n := Qnum x in
  let d := Zpos (Qden x) in
  let fl := n / d in
  match (2 * (n mod d)) ?= d with
  | Lt => fl
  | Gt => fl + 1
  | Eq => if Z.even fl then fl else fl + 1
  end.

(** [round(x, 2)] *)
Definition round2 (x : Q) : Q := Qred (round_half_even (x * 100) # 100).

(** ** models.py *)

Inductive Role := admin | user.

Definition role_eqb (a b : Role) : bool :=
  match a, b with
  | admin, admin | user, user => true
  | _, _ => false
  end.

(** ['A'] is available, ['O'] is occupied. *)
Inductive Status := A | O.

Definition status_eqb (a b : Status) : bool :=
  match a, b with
  | A, A | O, O => true
  | _, _ => false
  end.

Module User.
Record t := mk { id : Z; role : Role }.
End User.

Module ParkingLot.
Record t := mk {
  id : Z;
  prime_location_name : string;
  price : Q;
  address : string;
  pin_code : string;
  maximum_number_of_spots : Z }.
End ParkingLot.

Module ParkingSpot.
Record t := mk {
  id : Z;
  lot_id : Z;
  spot_number : string;
  status : Status }.

Definition with_status (st : Status) (sp : t) : t :=
  mk (id sp) (lot_id sp) (spot_number sp) st.
End ParkingSpot.

Module ParkingReservation.
Record t := mk {
  id : Z;
  spot_id : Z;
  user_id : Z;
  parking_timestamp : Z;
  leaving_timestamp : option Z;
  parking_cost_per_unit_time : Q;
  total_cost : option Q }.

(** Microseconds in an hour: [total_seconds() / 3600]. *)
Definition hour_us : positive := 3600000000.

(** [duration_hours]; [now] is [datetime.utcnow()].  The quotient and,
    in [calculate_total_cost], the product are exact here; Python computes
    them in binary floating point, so that at a decimal tie the stored cost
    can be a cent away from the value below.  The theorems on costs state
    signs, which both share, or values that are exact in binary. *)
Definition duration_hours (now : Z) (r : t) : Q :=
  match leaving_timestamp r with
  | Some leaving => (leaving - parking_timestamp r) # hour_us
  | None => (now - parking_timestamp r) # hour_us
  end.

Definition calculate_total_cost (now : Z) (r : t) : Q :=
  match leaving_timestamp r with
  | Some _ =>
      let hours_parked := duration_hours now r in
      round2 (hours_parked * parking_cost_per_unit_time r)
  | None => 0
  end.

Definition is_open (r : t) : bool :=
  match leaving_timestamp r with None => true | Some _ => false end.

(** The row after [leaving_timestamp] and [total_cost] are assigned. *)
Definition close (now : Z) (r : t) : t :=
  let r1 := mk (id r) (spot_id r) (user_id r) (parking_timestamp r)
               (Some now) (parking_cost_per_unit_time r) (total_cost r) in
  mk (id r) (spot_id r) (user_id r) (parking_timestamp r)
     (Some now) (parking_cost_per_unit_time r)
     (Some (calculate_total_cost now r1)).
End ParkingReservation.

(** The persisted state. *)
Record DB := mkDB {
  lots : list ParkingLot.t;
  spots : list ParkingSpot.t;
  reservations : list ParkingReservation.t }.

Definition empty_db : DB := mkDB [] [] [].

(** The key SQLite gives to a row inserted in a table holding [ids]. *)
Definition next_id (ids : list Z) : Z := 1 + fold_right Z.max 0 ids.

(** ** Queries *)

(** [ParkingLot.query.get(lot_id)] *)
Definition get_lot (db : DB) (lot_id : Z) : option ParkingLot.t :=
  find (fun l => ParkingLot.id l =? lot_id) (lots db).

(** [ParkingSpot.query.get(spot_id)] *)
Definition get_spot (db : DB) (spot_id : Z) : option ParkingSpot.t :=
  find (fun sp => ParkingSpot.id sp =? spot_id) (spots db).

Definition in_lot_with (lot_id : Z) (st : Status) (sp : ParkingSpot.t) : bool :=
  (ParkingSpot.lot_id sp =? lot_id) && status_eqb (ParkingSpot.status sp) st.

(** [ParkingSpot.query.filter_by(lot_id=lot_id, status=st)] *)
Definition spots_by (db : DB) (lot_id : Z) (st : Status) : list ParkingSpot.t :=
  filter (in_lot_with lot_id st) (spots db).

Definition open_for_user (uid : Z) (r : ParkingReservation.t) : bool :=
  (ParkingReservation.user_id r =? uid) && ParkingReservation.is_open r.

(** [ParkingReservation.query.filter_by(user_id=uid, leaving_timestamp=None).first()] *)
Definition active_reservation (db : DB) (uid : Z) : option ParkingReservation.t :=
  find (open_for_user uid) (reservations db).

Definition open_on_spot (sid : Z) (r : ParkingReservation.t) : bool :=
  (ParkingReservation.spot_id r =? sid) && ParkingReservation.is_open r.

(** A row written back by primary key: [UPDATE ... WHERE id = k]. *)
Definition update_by {T : Type} (key : T -> Z) (k : Z) (f : T -> T)
    (l : list T) : list T :=
  map (fun x => if key x =? k then f x else x) l.

Arguments update_by {T} key k f l : simpl never.

Definition update_spot := update_by ParkingSpot.id.
Definition update_reservation := update_by ParkingReservation.id.
Definition update_lot := update_by ParkingLot.id.

(** The ordinal printed in a spot label: the number after the last hyphen. *)
Fixpoint after_hyphen (s : string) : option string :=
  match s with
  | EmptyString => None
  | String c t =>
      match after_hyphen t with
      | Some r => Some r
      | None => if Ascii.eqb c "-" then Some t else None
      end
  end.

Definition ordinal_of_label (label : string) : option Z :=
  match after_hyphen label with
  | Some d =>
      match NilZero.uint_of_string d with
      | Some u => Some (Z.of_N (N.of_uint u))
      | None => None
      end
  | None => None
  end.

Definition spot_ordinal (sp : ParkingSpot.t) : option Z :=
  ordinal_of_label (ParkingSpot.spot_number sp).

(** ** Requests and responses *)

Inductive Method := GET | POST.

(** A numeric form field, seen through [float(...)] or [int(...)]:
    the key is absent, the text is empty, the text is not a number
    ([ValueError]), or the text denotes [v]. *)
Inductive NumericField (V : Type) :=
  | missing
  | empty
  | malformed
  | number (v : V).
Arguments missing {V}.
Arguments empty {V}.
Arguments malformed {V}.
Arguments number {V} v.

(** Truth value of [request.form.get(key, '')] for a numeric field. *)
Definition filled {V : Type} (f : NumericField V) : bool :=
  match f with
  | missing | empty => false
  | malformed | number _ => true
  end.

Module Form.
Record t := mk {
  prime_location_name : option string;
  price : NumericField Q;
  address : option string;
  pin_code : option string;
  maximum_number_of_spots : NumericField Z }.
End Form.

(** [request.form.get(key, '')] *)
Definition get_text (field : option string) : string :=
  match field with Some s => s | None => EmptyString end.

(** What a handler answers: the message it flashes, or the page or HTTP
    error it returns without a message. *)
Inductive Response :=
  | OnlyAdministrators         (* 'Only administrators can ...' *)
  | OnlyRegularUsers           (* 'Only regular users can ...' *)
  | NotFound404                (* get_or_404 *)
  | InternalServerError        (* an exception no handler catches *)
  | RenderForm                 (* the form page of a GET *)
  | FillAllFields              (* 'Please fill out all the required fields.' *)
  | MustBePositive             (* 'Price and number of spots must be positive numbers.' *)
  | LotCreated (name : string) (max_spots : Z)
  | CreateFailed               (* 'Something went wrong while creating the parking lot...' *)
  | LotUpdated
  | UpdateFailed
  | CannotDelete (occupied_spots : Z) (* 'Cannot delete this parking lot - n spots are currently occupied.' *)
  | LotDeleted (name : string)
  | DeleteFailed
  | AlreadyParked              (* 'You already have an active parking reservation...' *)
  | LotNotFound                (* 'Sorry, that parking lot could not be found.' *)
  | NoSpotsAvailable           (* 'Sorry, no spots are available in this parking lot right now.' *)
  | Booked (spot_number lot_name : string)
  | BookingFailed
  | NoActiveReservation        (* 'You don't have any active parking reservations to release.' *)
  | Released (spot_name : option string) (total_cost : option Q)
  | ReleaseFailed.

(** The spec's [ValidationError]. *)
Definition is_validation_error (r : Response) : bool :=
  match r with
  | FillAllFields | MustBePositive => true
  | _ => false
  end.

(** The responses of a handler whose work was committed. *)
Definition succeeded (r : Response) : bool :=
  match r with
  | LotCreated _ _ | LotUpdated | LotDeleted _ | Booked _ _ | Released _ _ => true
  | _ => false
  end.

(** ** app.py: the inventory handlers *)

(** [f"{name[:3].upper()}-{spot_number:03d}"] *)
Definition spot_label (name : string) (spot_number : Z) : string :=
  (upper (first3 name) ++ "-" ++ format_03d spot_number)%string.

(** The spots added by the loop of [create_parking_lot]; [base] is the key
    of the first one. *)
Definition new_spots (base lot_id : Z) (name : string) (max_spots : Z)
  : list ParkingSpot.t :=
  map (fun spot_number =>
         ParkingSpot.mk (base + (spot_number - 1)) lot_id
                        (spot_label name spot_number) A)
      (range 1 (max_spots + 1)).

Definition create_parking_lot (db : DB) (current_user : User.t) (method : Method)
    (form : Form.t) (commit_ok : bool) : Response * DB :=
  if negb (role_eqb (User.role current_user) admin) then (OnlyAdministrators, db)
  else match method with
  | GET => (RenderForm, db)
  | POST =>
    let name := strip (get_text (Form.prime_location_name form)) in
    let price := Form.price form in
    let address := strip (get_text (Form.address form)) in
    let pin_code := strip (get_text (Form.pin_code form)) in
    let max_spots := Form.maximum_number_of_spots form in
    if negb (truthy name && filled price && truthy address
             && truthy pin_code && filled max_spots)
    then (FillAllFields, db)
    else match price, max_spots with
    | number price, number max_spots =>
      if Qle_bool price 0 || (max_spots <=? 0) then (MustBePositive, db)
      else
        let new_lot :=
          ParkingLot.mk (next_id (map ParkingLot.id (lots db)))
                        name price address pin_code max_spots in
        let created :=
          new_spots (next_id (map ParkingSpot.id (spots db)))
                    (ParkingLot.id new_lot)
                    (ParkingLot.prime_location_name new_lot) max_spots in
        if commit_ok
        then (LotCreated name max_spots,
              mkDB (lots db ++ [new_lot]) (spots db ++ created) (reservations db))
        else (CreateFailed, db)
    | _, _ => (MustBePositive, db)
    end
  end.

(** The assignments of [edit_parking_lot]; capacity and key are kept. *)
Definition edited (name : string) (price : Q) (address pin_code : string)
    (lot : ParkingLot.t) : ParkingLot.t :=
  ParkingLot.mk (ParkingLot.id lot) name price address pin_code
                (ParkingLot.maximum_number_of_spots lot).

Definition edit_parking_lot (db : DB) (current_user : User.t) (lot_id : Z)
    (method : Method) (form : Form.t) (commit_ok : bool) : Response * DB :=
  if negb (role_eqb (User.role current_user) admin) then (OnlyAdministrators, db)
  else match get_lot db lot_id with
  | None => (NotFound404, db)
  | Some lot =>
    match method with
    | GET => (RenderForm, db)
    | POST =>
      let name := strip (get_text (Form.prime_location_name form)) in
      (* float(request.form.get('price', 0)) *)
      match (match Form.price form with
             | missing => Some 0%Q
             | number v => Some v
             | empty | malformed => None
             end) with
      | None => (InternalServerError, db)
      | Some price =>
        let address := strip (get_text (Form.address form)) in
        let pin_code := strip (get_text (Form.pin_code form)) in
        if commit_ok
        then (LotUpdated,
              mkDB (update_lot (ParkingLot.id lot)
                               (edited name price address pin_code) (lots db))
                   (spots db) (reservations db))
        else (UpdateFailed, db)
      end
    end
  end.

(** [spot.reservations]: the reservation rows of a spot, open or closed. *)
Definition spot_reservations (db : DB) (sp : ParkingSpot.t)
  : list ParkingReservation.t :=
  filter (fun r => ParkingReservation.spot_id r =? ParkingSpot.id sp)
         (reservations db).

(** Some spot of the lot has a reservation row. *)
Definition lot_has_reservations (db : DB) (lot : ParkingLot.t) : bool :=
  existsb (fun sp =>
             (ParkingSpot.lot_id sp =? ParkingLot.id lot)
             && match spot_reservations db sp with
                | [] => false
                | _ :: _ => true
                end)
          (spots db).

(** [db.session.delete(lot)] cascades to [lot.spots].  The relationship
    [ParkingSpot.reservations] has no delete cascade, so for every spot it
    deletes the flush sets [spot_id] of the rows of [spot.reservations] to
    NULL; the column is NOT NULL, the flush raises and the handler rolls
    back.  Otherwise [commit_ok] decides. *)
Definition delete_parking_lot (db : DB) (current_user : User.t) (lot_id : Z)
    (commit_ok : bool) : Response * DB :=
  if negb (role_eqb (User.role current_user) admin) then (OnlyAdministrators, db)
  else match get_lot db lot_id with
  | None => (NotFound404, db)
  | Some lot =>
    let occupied_spots := Z.of_nat (List.length (spots_by db lot_id O)) in
    if occupied_spots >? 0 then (CannotDelete occupied_spots, db)
    else if lot_has_reservations db lot then (DeleteFailed, db)
    else if commit_ok
    then (LotDeleted (ParkingLot.prime_location_name lot),
          mkDB (filter (fun l => negb (ParkingLot.id l =? ParkingLot.id lot)) (lots db))
               (filter (fun sp => negb (ParkingSpot.lot_id sp =? ParkingLot.id lot))
                       (spots db))
               (reservations db))
    else (DeleteFailed, db)
  end.

(** ** app.py: the reservation handlers *)

(** [now] is the clock reading stored as [parking_timestamp]. *)
Definition book_spot (db : DB) (current_user : User.t) (lot_id : Z) (now : Z)
    (commit_ok : bool) : Response * DB :=
  if negb (role_eqb (User.role current_user) user) then (OnlyRegularUsers, db)
  else match active_reservation db (User.id current_user) with
  | Some _ => (AlreadyParked, db)
  | None =>
    match get_lot db lot_id with
    | None => (LotNotFound, db)
    | Some lot =>
      match hd_error (spots_by db lot_id A) with
      | None => (NoSpotsAvailable, db)
      | Some available_spot =>
        let reservation :=
          ParkingReservation.mk
            (next_id (map ParkingReservation.id (reservations db)))
            (ParkingSpot.id available_spot) (User.id current_user) now None
            (ParkingLot.price lot) None in
        if commit_ok
        then (Booked (ParkingSpot.spot_number available_spot)
                     (ParkingLot.prime_location_name lot),
              mkDB (lots db)
                   (update_spot (ParkingSpot.id available_spot)
                                (ParkingSpot.with_status O) (spots db))
                   (reservations db ++ [reservation]))
        else (BookingFailed, db)
      end
    end
  end.

(** [now] is [datetime.utcnow()] at the release. *)
Definition release_spot (db : DB) (current_user : User.t) (now : Z)
    (commit_ok : bool) : Response * DB :=
  if negb (role_eqb (User.role current_user) user) then (OnlyRegularUsers, db)
  else match active_reservation db (User.id current_user) with
  | None => (NoActiveReservation, db)
  | Some reservation =>
    let closed := ParkingReservation.close now reservation in
    let spot := get_spot db (ParkingReservation.spot_id reservation) in
    let spots' :=
      match spot with
      | Some sp => update_spot (ParkingSpot.id sp) (ParkingSpot.with_status A) (spots db)
      | None => spots db
      end in
    if commit_ok
    then (Released (option_map ParkingSpot.spot_number spot)
                   (ParkingReservation.total_cost closed),
          mkDB (lots db) spots'
               (update_reservation (ParkingReservation.id reservation)
                                   (ParkingReservation.close now) (reservations db)))
    else (ReleaseFailed, db)
  end.

(** ** Reachable states *)

Inductive Request :=
  | CreateLot (current_user : User.t) (method : Method) (form : Form.t)
  | EditLot (current_user : User.t) (lot_id : Z) (method : Method) (form : Form.t)
  | DeleteLot (current_user : User.t) (lot_id : Z)
  | Book (current_user : User.t) (lot_id : Z) (now : Z)
  | Release (current_user : User.t) (now : Z).

Definition handle (db : DB) (rq : Request) (commit_ok : bool) : Response * DB :=
  match rq with
  | CreateLot u m f => create_parking_lot db u m f commit_ok
  | EditLot u l m f => edit_parking_lot db u l m f commit_ok
  | DeleteLot u l => delete_parking_lot db u l commit_ok
  | Book u l now => book_spot db u l now commit_ok
  | Release u now => release_spot db u now commit_ok
  end.

(** The states the handlers can produce from the empty database. *)
Inductive reachable : DB -> Prop :=
  | reachable_empty : reachable empty_db
  | reachable_step db rq commit_ok :
      reachable db -> reachable (snd (handle db rq commit_ok)).

(** Running a list of requests, every commit going through. *)
Definition run (db : DB) (rqs : list Request) : DB :=
  fold_left (fun d rq => snd (handle d rq true)) rqs db.

(** ** Counting open reservations *)

Definition open_count (db : DB) (spot_id : Z) : nat :=
  List.length (filter (open_on_spot spot_id) (reservations db)).

Definition user_open_count (db : DB) (uid : Z) : nat :=
  List.length (filter (open_for_user uid) (reservations db)).

Definition ascending (ids : list Z) : Prop := StronglySorted Z.lt ids.

(** ** The invariants of the persisted state *)

(** A spot is occupied exactly when one open reservation references it,
    and available exactly when none does. *)
Definition spot_status_invariant (db : DB) : Prop :=
  forall sp, In sp (spots db) ->
    (ParkingSpot.status sp = O <-> open_count db (ParkingSpot.id sp) = 1%nat) /\
    (ParkingSpot.status sp = A <-> open_count db (ParkingSpot.id sp) = 0%nat).

(** A user holds at most one open reservation. *)
Definition one_open_per_user (db : DB) : Prop :=
  forall uid, (user_open_count db uid <= 1)%nat.

(** An open reservation references a spot of the table. *)
Definition open_refs_exist (db : DB) : Prop :=
  forall r, In r (reservations db) -> ParkingReservation.is_open r = true ->
    In (ParkingReservation.spot_id r) (map ParkingSpot.id (spots db)).

(** Tables are in strictly ascending key order. *)
Definition keys_ascending (db : DB) : Prop :=
  ascending (map ParkingSpot.id (spots db)) /\
  ascending (map ParkingReservation.id (reservations db)).

(** Every spot belongs to a lot of the table. *)
Definition spots_have_lots (db : DB) : Prop :=
  forall sp, In sp (spots db) ->
    In (ParkingSpot.lot_id sp) (map ParkingLot.id (lots db)).

Definition in_lot (lot_id : Z) (sp : ParkingSpot.t) : bool :=
  ParkingSpot.lot_id sp =? lot_id.

(** The labels of the spots of a lot, in table order, are those printed at
    its creation for the ordinals 1, 2, ... *)
Definition labels_as_created (db : DB) : Prop :=
  forall lot_id, exists name n,
    map ParkingSpot.spot_number (filter (in_lot lot_id) (spots db))
    = map (spot_label name) (range 1 (n + 1)).

Record consistent (db : DB) : Prop := {
  inv_status : spot_status_invariant db;
  inv_user : one_open_per_user db;
  inv_refs : open_refs_exist db;
  inv_keys : keys_ascending db;
  inv_lots : spots_have_lots db;
  inv_labels : labels_as_created db }.

(** ** models.py: derived attributes *)

(** [lot.spots]: the rows of the relationship, in table order. *)
Definition lot_spots (db : DB) (lot : ParkingLot.t) : list ParkingSpot.t :=
  filter (in_lot (ParkingLot.id lot)) (spots db).

(** [ParkingLot.available_spots_count] *)
Definition available_spots_count (db : DB) (lot : ParkingLot.t) : nat :=
  List.length (filter (fun spot => status_eqb (ParkingSpot.status spot) A)
                      (lot_spots db lot)).

(** [ParkingLot.occupied_spots_count] *)
Definition occupied_spots_count (db : DB) (lot : ParkingLot.t) : nat :=
  List.length (filter (fun spot => status_eqb (ParkingSpot.status spot) O)
                      (lot_spots db lot)).

(** [ParkingSpot.current_reservation] *)
Definition current_reservation (db : DB) (sp : ParkingSpot.t)
  : option ParkingReservation.t :=
  find (open_on_spot (ParkingSpot.id sp)) (reservations db).

(** ** app.py: the figures of the dashboards *)

(** [ParkingSpot.query.count()] *)
Definition total_spots (db : DB) : Z := Z.of_nat (List.length (spots db)).

(** [ParkingSpot.query.filter_by(status='O').count()] *)
Definition occupied_spots (db : DB) : Z :=
  Z.of_nat (List.length
    (filter (fun sp => status_eqb (ParkingSpot.status sp) O) (spots db))).

(** [available_spots = total_spots - occupied_spots] *)
Definition available_spots (db : DB) : Z := total_spots db - occupied_spots db.

(** [ParkingReservation.query.filter(leaving_timestamp.isnot(None))] *)
Definition completed_reservations (db : DB) : list ParkingReservation.t :=
  filter (fun r => negb (ParkingReservation.is_open r)) (reservations db).

(** [reservation.spot.lot.prime_location_name]; [None] when the spot or
    the lot is gone, where the attribute access raises. *)
Definition lot_name_of (db : DB) (r : ParkingReservation.t) : option string :=
  match get_spot db (ParkingReservation.spot_id r) with
  | Some spot =>
      match get_lot db (ParkingSpot.lot_id spot) with
      | Some lot => Some (ParkingLot.prime_location_name lot)
      | None => None
      end
  | None => None
  end.

(** Running requests with the given commit outcomes. *)
Definition run_all (db : DB) (steps : list (Request * bool)) : DB :=
  fold_left (fun d step => snd (handle d (fst step) (snd step))) steps db.

(** ** Further properties of the persisted state *)

(** A lot has as many spot rows as its capacity says. *)
Definition capacity_matches (db : DB) : Prop :=
  forall lot, In lot (lots db) ->
    Z.of_nat (List.length (lot_spots db lot))
    = ParkingLot.maximum_number_of_spots lot.

(** The booking data of a row: key, spot, user, arrival and rate. *)
Definition same_booking (r r' : ParkingReservation.t) : Prop :=
  ParkingReservation.id r' = ParkingReservation.id r /\
  ParkingReservation.spot_id r' = ParkingReservation.spot_id r /\
  ParkingReservation.user_id r' = ParkingReservation.user_id r /\
  ParkingReservation.parking_timestamp r'
  = ParkingReservation.parking_timestamp r /\
  ParkingReservation.parking_cost_per_unit_time r'
  = ParkingReservation.parking_cost_per_unit_time r.

Definition is_release (rq : Request) : bool :=
  match rq with Release _ _ => true | _ => false end.



(** Trimming either end changes nothing. *)
Definition trimmed (s : string) : Prop := lstrip s = s /\ rstrip s = s.

Definition fields_trimmed (lot : ParkingLot.t) : Prop :=
  trimmed (ParkingLot.prime_location_name lot) /\
  trimmed (ParkingLot.address lot) /\
  trimmed (ParkingLot.pin_code lot).

(** ** app.py: accounts *)

(** A row of the user table; the lot and reservation handlers read its
    key and its role only ([User.t]). *)
Module Account.
Record t := mk {
  id : Z;
  username : string;
  password : string;   (* the hash *)
  role : Role }.
End Account.

Inductive RegisterResponse :=
  | RegisterForm          (* the form page of a GET *)
  | BothRequired          (* 'Both username and password are required.' *)
  | PasswordTooShort      (* 'Password must be at least 6 characters long.' *)
  | UsernameTaken         (* 'That username is already taken...' *)
  | AccountCreated
  | RegistrationFailed.

(** [User.query.filter_by(username=username).first()] *)
Definition user_by_name (users : list Account.t) (username : string)
  : option Account.t :=
  find (fun a => String.eqb (Account.username a) username) users.

(** [register]; [hashed_password] is what [generate_password_hash]
    returns for the password. *)
Definition register (users : list Account.t) (method : Method)
    (username_field password_field : option string) (hashed_password : string)
    (commit_ok : bool) : RegisterResponse * list Account.t :=
  match method with
  | GET => (RegisterForm, users)
  | POST =>
    let username := strip (get_text username_field) in
    let password := get_text password_field in
    if negb (truthy username) || negb (truthy password)
    then (BothRequired, users)
    else if (String.length password <? 6)%nat then (PasswordTooShort, users)
    else match user_by_name users username with
    | Some _ => (UsernameTaken, users)
    | None =>
      let new_user :=
        Account.mk (next_id (map Account.id users)) username hashed_password
                   user in
      if commit_ok then (AccountCreated, users ++ [new_user])
      else (RegistrationFailed, users)
    end
  end.

Definition is_admin (a : Account.t) : bool := role_eqb (Account.role a) admin.

(** The start-up block that creates the default administrator; [None]
    when the insert raises (commit refused, or the name 'admin' is taken
    and the unique constraint on [username] fails). *)
Definition create_default_admin (users : list Account.t)
    (admin_password : string) (commit_ok : bool) : option (list Account.t) :=
  match find is_admin users with
  | Some _ => Some users
  | None =>
    let admin_user :=
      Account.mk (next_id (map Account.id users)) "admin" admin_password
                 admin in
    match user_by_name users "admin" with
    | Some _ => None
    | None => if commit_ok then Some (users ++ [admin_user]) else None
    end
  end.

(** ** A concrete scenario *)

Definition an_admin : User.t := User.mk 1 admin.
Definition a_driver : User.t := User.mk 2 user.

Definition mall_form : Form.t :=
  Form.mk (Some "Mall"%string) (number 10%Q) (Some "1 Main Street"%string)
          (Some "560001"%string) (number 2).

(** The lot "Mall" with two spots, nobody parked. *)
Definition mall_db : DB := run empty_db [CreateLot an_admin POST mall_form].

(** "Mall" with the driver parked since time 0. *)
Definition parked_db : DB := run mall_db [Book a_driver 1 0].

(** ** Lists and keys *)

Lemma next_id_above (ids : list Z) (x : Z) : In x ids -> x < next_id ids.
Proof.
  unfold next_id. induction ids as [|y ids IH]; [simpl; tauto|].
  change (fold_right Z.max 0 (y :: ids)) with (Z.max y (fold_right Z.max 0 ids)).
  intros [->|H]; [lia|]. specialize (IH H). lia.
Qed.

Lemma ascending_snoc (ids : list Z) (x : Z) :
  ascending ids -> (forall y, In y ids -> y < x) -> ascending (ids ++ [x]).
Proof.
  unfold ascending. induction 1 as [|a l Hl IH Ha]; intros Hx; simpl.
  - repeat constructor.
  - constructor.
    + apply IH. intros y Hy. apply Hx. now right.
    + rewrite Forall_app. split; [exact Ha|].
      constructor; [|constructor]. apply Hx. now left.
Qed.

Lemma ascending_app (l1 l2 : list Z) :
  ascending l1 -> ascending l2 ->
  (forall x y, In x l1 -> In y l2 -> x < y) -> ascending (l1 ++ l2).
Proof.
  unfold ascending. induction 1 as [|a l Hl IH Ha]; intros H2 Hlt; simpl.
  - exact H2.
  - constructor.
    + apply IH; [exact H2|]. intros x y Hx Hy. apply Hlt; [now right|exact Hy].
    + rewrite Forall_app. split; [exact Ha|].
      rewrite Forall_forall. intros y Hy. apply Hlt; [now left|exact Hy].
Qed.

Lemma ascending_NoDup (ids : list Z) : ascending ids -> NoDup ids.
Proof.
  induction 1 as [|a l Hl IH Ha]; constructor; [|exact IH].
  intros Hin. rewrite Forall_forall in Ha. specialize (Ha a Hin). lia.
Qed.

Lemma ascending_filter {T : Type} (key : T -> Z) (P : T -> bool) (l : list T) :
  ascending (map key l) -> ascending (map key (filter P l)).
Proof.
  unfold ascending. induction l as [|a l IH]; simpl; intros H; [constructor|].
  inversion H as [|? ? Hl Ha]; subst.
  destruct (P a); simpl; [constructor|]; auto.
  rewrite Forall_forall in *. intros y Hy. apply Ha.
  rewrite in_map_iff in *. destruct Hy as (z & <- & Hz).
  apply filter_In in Hz. exists z. tauto.
Qed.

Lemma range_ascending (a b : Z) : ascending (range a b).
Proof.
  unfold range. generalize (Z.to_nat (b - a)) as n. intros n.
  generalize 0%nat as s. induction n as [|n IH]; intros s; simpl; [constructor|].
  constructor; [apply IH|].
  rewrite Forall_forall. intros y Hy.
  rewrite in_map_iff in Hy. destruct Hy as (i & <- & Hi).
  apply in_seq in Hi. lia.
Qed.

Lemma in_range (a b x : Z) : In x (range a b) <-> a <= x < b.
Proof.
  unfold range. rewrite in_map_iff. split.
  - intros (i & <- & Hi). apply in_seq in Hi. lia.
  - intros H. exists (Z.to_nat (x - a)). split; [lia|]. apply in_seq. lia.
Qed.

Lemma range_length (a b : Z) : List.length (range a b) = Z.to_nat (b - a).
Proof. unfold range. now rewrite length_map, length_seq. Qed.

Section UpdateBy.
Context {T : Type} (key : T -> Z).

Lemma update_by_keys (k : Z) (f : T -> T) (l : list T) :
  (forall x, key (f x) = key x) ->
  map key (update_by key k f l) = map key l.
Proof.
  intros Hf. unfold update_by. rewrite map_map. apply map_ext.
  intros x. destruct (key x =? k); auto.
Qed.

Lemma update_by_fresh (k : Z) (f : T -> T) (l : list T) :
  ~ In k (map key l) -> update_by key k f l = l.
Proof.
  unfold update_by. induction l as [|a l IH]; simpl; intros H; [reflexivity|].
  destruct (Z.eqb_spec (key a) k) as [E|E]; [exfalso; auto|].
  f_equal. apply IH. tauto.
Qed.

(** With distinct keys the update touches one row. *)
Lemma update_by_split (f : T -> T) (l1 l2 : list T) (r : T) :
  NoDup (map key (l1 ++ r :: l2)) ->
  update_by key (key r) f (l1 ++ r :: l2) = l1 ++ f r :: l2.
Proof.
  intros H. rewrite map_app in H. simpl in H.
  pose proof (NoDup_remove_2 _ _ _ H) as Hnot.
  rewrite in_app_iff in Hnot.
  unfold update_by. rewrite map_app. simpl. rewrite Z.eqb_refl.
  f_equal; [|f_equal]; apply update_by_fresh; tauto.
Qed.

(** Counting the rows that satisfy [P] across an update of row [r]. *)
Lemma count_update_by (P : T -> bool) (f : T -> T) (l : list T) (r : T) :
  NoDup (map key l) -> In r l ->
  (List.length (filter P (update_by key (key r) f l)) + (if P r then 1 else 0)
   = List.length (filter P l) + (if P (f r) then 1 else 0))%nat.
Proof.
  intros Hnd Hin. apply in_split in Hin. destruct Hin as (l1 & l2 & ->).
  rewrite update_by_split by exact Hnd.
  rewrite !filter_app, !length_app. simpl.
  destruct (P r), (P (f r)); simpl; lia.
Qed.
End UpdateBy.

Lemma find_none_filter {T : Type} (P : T -> bool) (l : list T) :
  find P l = None -> filter P l = [].
Proof.
  induction l as [|a l IH]; simpl; [reflexivity|].
  destruct (P a); [discriminate|exact IH].
Qed.

Lemma hd_error_in {T : Type} (l : list T) (x : T) : hd_error l = Some x -> In x l.
Proof. destruct l; simpl; [discriminate|]. intros [= ->]. now left. Qed.

Lemma hd_filter_find {T : Type} (P : T -> bool) (l : list T) :
  hd_error (filter P l) = find P l.
Proof.
  induction l as [|a l IH]; simpl; [reflexivity|]. destruct (P a); auto.
Qed.

Lemma status_eqb_eq (a b : Status) : status_eqb a b = true <-> a = b.
Proof. destruct a, b; simpl; split; congruence. Qed.

Lemma role_eqb_eq (a b : Role) : role_eqb a b = true <-> a = b.
Proof. destruct a, b; simpl; split; congruence. Qed.

Lemma get_lot_some db lot_id lot :
  get_lot db lot_id = Some lot -> In lot (lots db) /\ ParkingLot.id lot = lot_id.
Proof.
  unfold get_lot. intros H. apply find_some in H. destruct H as [H1 H2].
  split; [exact H1|]. now apply Z.eqb_eq.
Qed.

Lemma get_spot_some db sid sp :
  get_spot db sid = Some sp -> In sp (spots db) /\ ParkingSpot.id sp = sid.
Proof.
  unfold get_spot. intros H. apply find_some in H. destruct H as [H1 H2].
  split; [exact H1|]. now apply Z.eqb_eq.
Qed.

Lemma get_spot_none db sid :
  get_spot db sid = None -> ~ In sid (map ParkingSpot.id (spots db)).
Proof.
  unfold get_spot. intros H Hin. rewrite in_map_iff in Hin.
  destruct Hin as (sp & E & Hsp).
  pose proof (find_none _ _ H sp Hsp) as F. simpl in F. lia.
Qed.

Lemma first_available db lot_id sp :
  hd_error (spots_by db lot_id A) = Some sp ->
  In sp (spots db) /\ ParkingSpot.lot_id sp = lot_id /\ ParkingSpot.status sp = A.
Proof.
  intros H. apply hd_error_in in H. unfold spots_by in H.
  apply filter_In in H. destruct H as [H1 H2]. unfold in_lot_with in H2.
  apply andb_true_iff in H2. destruct H2 as [H2 H3].
  apply Z.eqb_eq in H2. apply status_eqb_eq in H3. tauto.
Qed.

Lemma active_reservation_some db uid r :
  active_reservation db uid = Some r ->
  In r (reservations db) /\ ParkingReservation.user_id r = uid /\
  ParkingReservation.is_open r = true.
Proof.
  unfold active_reservation. intros H. apply find_some in H.
  destruct H as [H1 H2]. unfold open_for_user in H2.
  apply andb_true_iff in H2. destruct H2 as [H2 H3]. apply Z.eqb_eq in H2. tauto.
Qed.

Lemma active_reservation_none db uid :
  active_reservation db uid = None <-> user_open_count db uid = 0%nat.
Proof.
  unfold active_reservation, user_open_count. split.
  - intros H. now rewrite (find_none_filter _ _ H).
  - intros H. apply length_zero_iff_nil in H.
    rewrite <- hd_filter_find, H. reflexivity.
Qed.

Lemma close_not_open now r :
  ParkingReservation.is_open (ParkingReservation.close now r) = false.
Proof. reflexivity. Qed.

Lemma open_on_spot_close x now r :
  open_on_spot x (ParkingReservation.close now r) = false.
Proof. unfold open_on_spot. now rewrite close_not_open, andb_false_r. Qed.

Lemma open_for_user_close uid now r :
  open_for_user uid (ParkingReservation.close now r) = false.
Proof. unfold open_for_user. now rewrite close_not_open, andb_false_r. Qed.

Lemma open_count_positive db r :
  In r (reservations db) -> ParkingReservation.is_open r = true ->
  (1 <= open_count db (ParkingReservation.spot_id r))%nat.
Proof.
  intros Hin Hopen. unfold open_count.
  assert (H : In r (filter (open_on_spot (ParkingReservation.spot_id r))
                           (reservations db))).
  { apply filter_In. split; [exact Hin|]. unfold open_on_spot.
    now rewrite Z.eqb_refl, Hopen. }
  destruct (filter _ _); simpl in *; [tauto|lia].
Qed.

(** ** What each handler does to the persisted state *)

(** [book_spot] leaves the state alone or books the first available spot. *)
Lemma book_spot_effect db u lot_id now commit_ok :
  succeeded (fst (book_spot db u lot_id now commit_ok)) = false /\
  snd (book_spot db u lot_id now commit_ok) = db \/
  exists lot sp,
    User.role u = user /\
    active_reservation db (User.id u) = None /\
    get_lot db lot_id = Some lot /\
    hd_error (spots_by db lot_id A) = Some sp /\
    commit_ok = true /\
    book_spot db u lot_id now commit_ok =
      (Booked (ParkingSpot.spot_number sp) (ParkingLot.prime_location_name lot),
       mkDB (lots db)
            (update_spot (ParkingSpot.id sp) (ParkingSpot.with_status O) (spots db))
            (reservations db ++
               [ParkingReservation.mk
                  (next_id (map ParkingReservation.id (reservations db)))
                  (ParkingSpot.id sp) (User.id u) now None
                  (ParkingLot.price lot) None])).
Proof.
  unfold book_spot.
  destruct (role_eqb (User.role u) user) eqn:Hr; simpl; [|now left].
  destruct (active_reservation db (User.id u)) eqn:Ha; [now left|].
  destruct (get_lot db lot_id) as [lot|] eqn:Hl; [|now left].
  destruct (hd_error (spots_by db lot_id A)) as [sp|] eqn:Hs; [|now left].
  destruct commit_ok; [|now left].
  right. exists lot, sp. apply role_eqb_eq in Hr. auto 10.
Qed.

(** [release_spot] leaves the state alone or closes the user's first open
    reservation and frees its spot. *)
Lemma release_spot_effect db u now commit_ok :
  succeeded (fst (release_spot db u now commit_ok)) = false /\
  snd (release_spot db u now commit_ok) = db \/
  exists r,
    User.role u = user /\
    active_reservation db (User.id u) = Some r /\
    commit_ok = true /\
    release_spot db u now commit_ok =
      (Released (option_map ParkingSpot.spot_number
                            (get_spot db (ParkingReservation.spot_id r)))
                (ParkingReservation.total_cost (ParkingReservation.close now r)),
       mkDB (lots db)
            (match get_spot db (ParkingReservation.spot_id r) with
             | Some sp => update_spot (ParkingSpot.id sp)
                                      (ParkingSpot.with_status A) (spots db)
             | None => spots db
             end)
            (update_reservation (ParkingReservation.id r)
                                (ParkingReservation.close now) (reservations db))).
Proof.
  unfold release_spot.
  destruct (role_eqb (User.role u) user) eqn:Hr; simpl; [|now left].
  destruct (active_reservation db (User.id u)) as [r|] eqn:Ha; [|now left].
  destruct commit_ok; [|now left].
  right. exists r. apply role_eqb_eq in Hr. auto.
Qed.

(** [create_parking_lot] leaves the state alone or appends one lot and its
    spots. *)
Lemma create_parking_lot_effect db u method form commit_ok :
  succeeded (fst (create_parking_lot db u method form commit_ok)) = false /\
  snd (create_parking_lot db u method form commit_ok) = db \/
  exists price max_spots,
    let name := strip (get_text (Form.prime_location_name form)) in
    let lot_id := next_id (map ParkingLot.id (lots db)) in
    Form.price form = number price /\
    Form.maximum_number_of_spots form = number max_spots /\
    0 < max_spots /\ (0 < price)%Q /\ commit_ok = true /\
    create_parking_lot db u method form commit_ok =
      (LotCreated name max_spots,
       mkDB (lots db ++
               [ParkingLot.mk lot_id name price
                  (strip (get_text (Form.address form)))
                  (strip (get_text (Form.pin_code form))) max_spots])
            (spots db ++
               new_spots (next_id (map ParkingSpot.id (spots db)))
                         lot_id name max_spots)
            (reservations db)).
Proof.
  unfold create_parking_lot.
  destruct (role_eqb (User.role u) admin); simpl; [|now left].
  destruct method; [now left|].
  destruct (truthy _ && _ && _ && _ && _); simpl; [|now left].
  destruct (Form.price form) as [| | |price]; try now left.
  destruct (Form.maximum_number_of_spots form) as [| | |n]; try now left.
  destruct (Qle_bool price 0) eqn:Hp; simpl; [now left|].
  destruct (Z.leb_spec n 0); [now left|].
  destruct commit_ok; [|now left].
  right. exists price, n. simpl. repeat split; auto.
  apply Qnot_le_lt. intros Hle. apply Qle_bool_iff in Hle. congruence.
Qed.

(** [delete_parking_lot] leaves the state alone or removes a lot without
    occupied spots, and the spots of that lot. *)
Lemma delete_parking_lot_effect db u lot_id commit_ok :
  succeeded (fst (delete_parking_lot db u lot_id commit_ok)) = false /\
  snd (delete_parking_lot db u lot_id commit_ok) = db \/
  exists lot,
    get_lot db lot_id = Some lot /\ spots_by db lot_id O = [] /\
    commit_ok = true /\
    delete_parking_lot db u lot_id commit_ok =
      (LotDeleted (ParkingLot.prime_location_name lot),
       mkDB (filter (fun l => negb (ParkingLot.id l =? lot_id)) (lots db))
            (filter (fun sp => negb (in_lot lot_id sp)) (spots db))
            (reservations db)).
Proof.
  unfold delete_parking_lot.
  destruct (role_eqb (User.role u) admin); simpl; [|now left].
  destruct (get_lot db lot_id) as [lot|] eqn:Hl; [|now left].
  destruct (get_lot_some _ _ _ Hl) as [_ E]. rewrite E.
  destruct (spots_by db lot_id O) eqn:Hs; simpl; [|now left].
  destruct (lot_has_reservations db lot); [now left|].
  destruct commit_ok; [|now left].
  right. exists lot. auto.
Qed.

(** [edit_parking_lot] changes neither spots nor reservations. *)
Lemma edit_parking_lot_effect db u lot_id method form commit_ok :
  succeeded (fst (edit_parking_lot db u lot_id method form commit_ok)) = false /\
  snd (edit_parking_lot db u lot_id method form commit_ok) = db \/
  exists name price address pin_code,
    edit_parking_lot db u lot_id method form commit_ok =
      (LotUpdated,
       mkDB (update_lot lot_id (edited name price address pin_code) (lots db))
            (spots db) (reservations db)).
Proof.
  unfold edit_parking_lot.
  destruct (role_eqb (User.role u) admin); simpl; [|now left].
  destruct (get_lot db lot_id) as [lot|] eqn:Hl; [|now left].
  destruct (get_lot_some _ _ _ Hl) as [_ E]. rewrite E.
  destruct method; [now left|].
  destruct (Form.price form) as [| | |price]; try (now left);
    (destruct commit_ok; [|now left]); right; simpl; eauto.
Qed.

(** ** Lemmas on counts and updates *)

Lemma in_update_by {T : Type} (key : T -> Z) k f (l : list T) y :
  In y (update_by key k f l) <->
  exists x, In x l /\ y = if key x =? k then f x else x.
Proof.
  unfold update_by. rewrite in_map_iff. split; intros (x & H1 & H2); exists x; auto.
Qed.

Lemma filter_nil {T : Type} (P : T -> bool) (l : list T) :
  (forall x, In x l -> P x = false) -> filter P l = [].
Proof.
  induction l as [|a l IH]; simpl; intros H; [reflexivity|].
  rewrite (H a) by now left. apply IH. intros x Hx. apply H. now right.
Qed.

Lemma filter_all {T : Type} (P : T -> bool) (l : list T) :
  (forall x, In x l -> P x = true) -> filter P l = l.
Proof.
  induction l as [|a l IH]; simpl; intros H; [reflexivity|].
  rewrite (H a) by now left. f_equal. apply IH. intros x Hx. apply H. now right.
Qed.

Lemma open_count_unreferenced db x :
  open_refs_exist db -> ~ In x (map ParkingSpot.id (spots db)) ->
  open_count db x = 0%nat.
Proof.
  intros Hrefs Hx. unfold open_count. rewrite filter_nil; [reflexivity|].
  intros r Hr. unfold open_on_spot.
  destruct (Z.eqb_spec (ParkingReservation.spot_id r) x) as [E|E]; [|reflexivity].
  destruct (ParkingReservation.is_open r) eqn:Ho; [|reflexivity].
  exfalso. apply Hx. rewrite <- E. now apply Hrefs.
Qed.

Lemma status_cases (st : Status) : st = A \/ st = O.
Proof. destruct st; auto. Qed.

(** A referenced spot is occupied, with one open reservation. *)
Lemma referenced_spot_occupied db sp r :
  spot_status_invariant db -> In sp (spots db) ->
  In r (reservations db) -> ParkingReservation.is_open r = true ->
  ParkingReservation.spot_id r = ParkingSpot.id sp ->
  ParkingSpot.status sp = O /\ open_count db (ParkingSpot.id sp) = 1%nat.
Proof.
  intros Hinv Hsp Hr Ho E.
  pose proof (open_count_positive db r Hr Ho) as Hpos. rewrite E in Hpos.
  destruct (Hinv sp Hsp) as [HO HA].
  destruct (status_cases (ParkingSpot.status sp)) as [S|S].
  - apply HA in S. lia.
  - split; [exact S|]. now apply HO.
Qed.

Lemma labels_update_spot lot_id k st (l : list ParkingSpot.t) :
  map ParkingSpot.spot_number
      (filter (in_lot lot_id) (update_spot k (ParkingSpot.with_status st) l))
  = map ParkingSpot.spot_number (filter (in_lot lot_id) l).
Proof.
  unfold update_spot, update_by.
  induction l as [|a l IH]; simpl; [reflexivity|].
  destruct (ParkingSpot.id a =? k); unfold in_lot in *; simpl;
    destruct (ParkingSpot.lot_id a =? lot_id); simpl; now rewrite IH.
Qed.

Lemma new_spots_ids base lot_id name n :
  map ParkingSpot.id (new_spots base lot_id name n) = range base (base + n).
Proof.
  unfold new_spots, range. rewrite !map_map. cbn [ParkingSpot.id].
  replace (n + 1 - 1) with n by lia.
  replace (base + n - base) with n by lia.
  apply map_ext. intros i. lia.
Qed.

Lemma new_spots_labels base lot_id name n :
  map ParkingSpot.spot_number (new_spots base lot_id name n)
  = map (spot_label name) (range 1 (n + 1)).
Proof. unfold new_spots. rewrite map_map. reflexivity. Qed.

Lemma in_new_spots base lot_id name n sp :
  In sp (new_spots base lot_id name n) ->
  ParkingSpot.lot_id sp = lot_id /\ ParkingSpot.status sp = A /\
  base <= ParkingSpot.id sp.
Proof.
  unfold new_spots. rewrite in_map_iff. intros (k & <- & Hk).
  apply in_range in Hk. simpl. repeat split. lia.
Qed.

Lemma filter_in_lot_removed lot_id other (l : list ParkingSpot.t) :
  filter (in_lot other) (filter (fun sp => negb (in_lot lot_id sp)) l)
  = if other =? lot_id then [] else filter (in_lot other) l.
Proof.
  unfold in_lot. induction l as [|a l IH]; simpl.
  - now destruct (other =? lot_id).
  - destruct (Z.eqb_spec (ParkingSpot.lot_id a) lot_id) as [E|E]; simpl.
    + rewrite IH. destruct (Z.eqb_spec other lot_id) as [F|F]; [reflexivity|].
      destruct (Z.eqb_spec (ParkingSpot.lot_id a) other); [lia|reflexivity].
    + rewrite IH. destruct (Z.eqb_spec other lot_id) as [F|F].
      * destruct (Z.eqb_spec (ParkingSpot.lot_id a) other); [lia|reflexivity].
      * reflexivity.
Qed.

(** ** Every handler preserves the invariants *)

Ltac proj_db := cbn [spots lots reservations] in *.

Lemma book_spot_consistent db u lot_id now commit_ok :
  consistent db -> consistent (snd (book_spot db u lot_id now commit_ok)).
Proof.
  intros [Hst Hus Hrf [Hk1 Hk2] Hlt Hlb].
  destruct (book_spot_effect db u lot_id now commit_ok)
    as [[_ ->]|(lot & sp & _ & Ha & _ & Hs & _ & ->)]; [now constructor|].
  destruct (first_available _ _ _ Hs) as (Hin & Hlot & HA). simpl.
  assert (Hc : forall x,
    open_count (mkDB (lots db)
      (update_spot (ParkingSpot.id sp) (ParkingSpot.with_status O) (spots db))
      (reservations db ++
         [ParkingReservation.mk
            (next_id (map ParkingReservation.id (reservations db)))
            (ParkingSpot.id sp) (User.id u) now None (ParkingLot.price lot) None])) x
    = (open_count db x + if (ParkingSpot.id sp =? x)%Z then 1 else 0)%nat).
  { intros x. unfold open_count. simpl. rewrite filter_app, length_app.
    simpl. unfold open_on_spot at 2. simpl. rewrite andb_true_r.
    now destruct (ParkingSpot.id sp =? x). }
  constructor; simpl.
  - intros sp' Hin'. proj_db. apply in_update_by in Hin'. destruct Hin' as (sp0 & Hin0 & ->).
    destruct (Hst sp Hin) as [_ HA']. apply HA' in HA.
    destruct (Z.eqb_spec (ParkingSpot.id sp0) (ParkingSpot.id sp)) as [E|E].
    + simpl. rewrite Hc, E, Z.eqb_refl, HA. simpl.
      repeat split; intros; try reflexivity; discriminate.
    + rewrite Hc. destruct (Z.eqb_spec (ParkingSpot.id sp) (ParkingSpot.id sp0));
        [congruence|]. rewrite Nat.add_0_r. now apply Hst.
  - intros uid. unfold user_open_count. proj_db. rewrite filter_app, length_app.
    simpl. unfold open_for_user at 2. simpl. rewrite andb_true_r.
    destruct (Z.eqb_spec (User.id u) uid) as [E|E]; simpl.
    + apply active_reservation_none in Ha. unfold user_open_count in Ha.
      rewrite <- E, Ha. lia.
    + specialize (Hus uid). unfold user_open_count in Hus. lia.
  - intros r Hr Ho. proj_db. unfold update_spot.
    rewrite update_by_keys by reflexivity.
    apply in_app_iff in Hr. destruct Hr as [Hr|[<-|[]]]; [now apply Hrf|].
    simpl. now apply in_map.
  - split; proj_db.
    + unfold update_spot. now rewrite update_by_keys by reflexivity.
    + rewrite map_app. apply ascending_snoc; [exact Hk2|].
      intros y Hy. now apply next_id_above.
  - intros sp' Hin'. proj_db. apply in_update_by in Hin'. destruct Hin' as (sp0 & Hin0 & ->).
    destruct (ParkingSpot.id sp0 =? ParkingSpot.id sp); simpl; now apply Hlt.
  - intros l. destruct (Hlb l) as (name & n & E). exists name, n. proj_db.
    now rewrite labels_update_spot.
Qed.

Lemma release_spot_consistent db u now commit_ok :
  consistent db -> consistent (snd (release_spot db u now commit_ok)).
Proof.
  intros [Hst Hus Hrf [Hk1 Hk2] Hlt Hlb].
  destruct (release_spot_effect db u now commit_ok)
    as [[_ ->]|(r & _ & Ha & _ & ->)]; [now constructor|].
  destruct (active_reservation_some _ _ _ Ha) as (Hr & Hu & Ho).
  destruct (get_spot db (ParkingReservation.spot_id r)) as [sp1|] eqn:Hg;
    [|exfalso; apply (get_spot_none _ _ Hg); now apply Hrf].
  destruct (get_spot_some _ _ _ Hg) as [Hin1 Hid1].
  pose proof (ascending_NoDup _ Hk2) as Hnd.
  cbn [snd]. rewrite Hid1.
  set (db' := mkDB _ _ _).
  assert (Hc : forall x,
    (open_count db' x + (if open_on_spot x r then 1 else 0)
     = open_count db x)%nat).
  { intros x. unfold open_count, db', update_reservation. proj_db.
    rewrite (count_update_by ParkingReservation.id (open_on_spot x)
               (ParkingReservation.close now) _ r Hnd Hr).
    rewrite open_on_spot_close. lia. }
  constructor.
  - intros sp' Hin'. unfold db' in Hin'. proj_db.
    apply in_update_by in Hin'. destruct Hin' as (sp0 & Hin0 & ->).
    specialize (Hc (ParkingSpot.id sp0)). unfold open_on_spot in Hc.
    rewrite Ho, andb_true_r in Hc.
    destruct (Z.eqb_spec (ParkingSpot.id sp0) (ParkingReservation.spot_id r))
      as [E|E].
    + destruct (referenced_spot_occupied db sp0 r Hst Hin0 Hr Ho (eq_sym E))
        as [_ H1].
      rewrite Z.eqb_sym in Hc.
      destruct (Z.eqb_spec (ParkingSpot.id sp0) (ParkingReservation.spot_id r));
        [|contradiction].
      cbn [ParkingSpot.with_status ParkingSpot.id ParkingSpot.status].
      assert (open_count db' (ParkingSpot.id sp0) = 0%nat) as -> by lia.
      repeat split; intros; try reflexivity; discriminate.
    + rewrite Z.eqb_sym in Hc.
      destruct (Z.eqb_spec (ParkingSpot.id sp0) (ParkingReservation.spot_id r));
        [contradiction|].
      rewrite Nat.add_0_r in Hc. rewrite Hc. now apply Hst.
  - intros uid. unfold user_open_count, db', update_reservation. proj_db.
    pose proof (count_update_by ParkingReservation.id (open_for_user uid)
                  (ParkingReservation.close now) _ r Hnd Hr) as H.
    rewrite open_for_user_close in H.
    specialize (Hus uid). unfold user_open_count in Hus. lia.
  - intros r' Hr' Ho'. unfold db', update_spot, update_reservation in *. proj_db.
    rewrite update_by_keys by reflexivity.
    apply in_update_by in Hr'. destruct Hr' as (r0 & Hr0 & ->).
    destruct (ParkingReservation.id r0 =? ParkingReservation.id r);
      [discriminate|]. now apply Hrf.
  - unfold db', update_spot, update_reservation. split; proj_db;
      now rewrite update_by_keys by reflexivity.
  - intros sp' Hin'. unfold db' in *. proj_db.
    apply in_update_by in Hin'. destruct Hin' as (sp0 & Hin0 & ->).
    destruct (ParkingSpot.id sp0 =? _); simpl; now apply Hlt.
  - intros l. destruct (Hlb l) as (name & n & E). exists name, n.
    unfold db'. proj_db. now rewrite labels_update_spot.
Qed.

Lemma create_parking_lot_consistent db u method form commit_ok :
  consistent db ->
  consistent (snd (create_parking_lot db u method form commit_ok)).
Proof.
  intros [Hst Hus Hrf [Hk1 Hk2] Hlt Hlb].
  destruct (create_parking_lot_effect db u method form commit_ok)
    as [[_ ->]|(price & n & H)]; [now constructor|].
  cbv zeta in H. destruct H as (_ & _ & Hn & _ & _ & ->). cbn [snd].
  set (name := strip (get_text (Form.prime_location_name form))).
  set (lid := next_id (map ParkingLot.id (lots db))).
  set (base := next_id (map ParkingSpot.id (spots db))).
  assert (Hfresh : forall sp, In sp (new_spots base lid name n) ->
                     ~ In (ParkingSpot.id sp) (map ParkingSpot.id (spots db))).
  { intros sp Hsp Hin. apply in_new_spots in Hsp. destruct Hsp as (_ & _ & Hb).
    apply next_id_above in Hin. fold base in Hin. lia. }
  constructor.
  - intros sp Hin. proj_db. unfold open_count. proj_db.
    apply in_app_iff in Hin. destruct Hin as [Hin|Hin]; [now apply Hst|].
    fold (open_count db (ParkingSpot.id sp)).
    rewrite (open_count_unreferenced db _ Hrf (Hfresh sp Hin)).
    apply in_new_spots in Hin. destruct Hin as (_ & -> & _).
    repeat split; intros; try reflexivity; discriminate.
  - exact Hus.
  - intros r Hr Ho. proj_db. rewrite map_app, in_app_iff. left. now apply Hrf.
  - split; proj_db; [|exact Hk2].
    rewrite map_app. apply ascending_app; [exact Hk1| |].
    + rewrite new_spots_ids. apply range_ascending.
    + intros x y Hx Hy. rewrite new_spots_ids in Hy. apply in_range in Hy.
      apply next_id_above in Hx. fold base in Hx. lia.
  - intros sp Hin. proj_db. rewrite map_app, in_app_iff.
    apply in_app_iff in Hin. destruct Hin as [Hin|Hin]; [left; now apply Hlt|].
    right. apply in_new_spots in Hin. destruct Hin as (-> & _). now left.
  - intros l. proj_db. rewrite filter_app, map_app.
    destruct (Z.eq_dec l lid) as [->|Hne].
    + exists name, n. rewrite (filter_nil (in_lot lid) (spots db)).
      * rewrite filter_all; [apply new_spots_labels|].
        intros sp Hsp. apply in_new_spots in Hsp. destruct Hsp as (E & _).
        unfold in_lot. now apply Z.eqb_eq.
      * intros sp Hsp. unfold in_lot. apply Z.eqb_neq. intros E.
        apply Hlt in Hsp. rewrite E in Hsp. apply next_id_above in Hsp.
        fold lid in Hsp. lia.
    + destruct (Hlb l) as (name0 & n0 & E). exists name0, n0.
      rewrite (filter_nil (in_lot l) (new_spots _ _ _ _)), app_nil_r; [exact E|].
      intros sp Hsp. apply in_new_spots in Hsp. destruct Hsp as (E' & _).
      unfold in_lot. apply Z.eqb_neq. congruence.
Qed.

Lemma delete_parking_lot_consistent db u lot_id commit_ok :
  consistent db -> consistent (snd (delete_parking_lot db u lot_id commit_ok)).
Proof.
  intros [Hst Hus Hrf [Hk1 Hk2] Hlt Hlb].
  destruct (delete_parking_lot_effect db u lot_id commit_ok)
    as [[_ ->]|(lot & _ & Hocc & _ & ->)]; [now constructor|].
  cbn [snd]. constructor.
  - intros sp Hin. proj_db. apply filter_In in Hin. now apply Hst.
  - exact Hus.
  - intros r Hr Ho. proj_db. pose proof (Hrf r Hr Ho) as Hin.
    rewrite in_map_iff in Hin. destruct Hin as (sp & E & Hsp).
    rewrite in_map_iff. exists sp. split; [exact E|].
    apply filter_In. split; [exact Hsp|].
    destruct (in_lot lot_id sp) eqn:Hl; [|reflexivity]. exfalso.
    destruct (referenced_spot_occupied db sp r Hst Hsp Hr Ho (eq_sym E)) as [S _].
    assert (Hin : In sp (spots_by db lot_id O)).
    { apply filter_In. split; [exact Hsp|]. unfold in_lot_with.
      unfold in_lot in Hl. rewrite Hl, S. reflexivity. }
    rewrite Hocc in Hin. destruct Hin.
  - split; proj_db; [now apply ascending_filter|exact Hk2].
  - intros sp Hin. proj_db. apply filter_In in Hin. destruct Hin as [Hin Hl].
    pose proof (Hlt sp Hin) as H. rewrite in_map_iff in *.
    destruct H as (l & E & Hl'). exists l. split; [exact E|].
    apply filter_In. split; [exact Hl'|]. unfold in_lot in Hl. now rewrite E.
  - intros l. proj_db. rewrite filter_in_lot_removed.
    destruct (l =? lot_id); [|apply Hlb].
    exists EmptyString, 0. reflexivity.
Qed.

Lemma edit_parking_lot_consistent db u lot_id method form commit_ok :
  consistent db ->
  consistent (snd (edit_parking_lot db u lot_id method form commit_ok)).
Proof.
  intros [Hst Hus Hrf [Hk1 Hk2] Hlt Hlb].
  destruct (edit_parking_lot_effect db u lot_id method form commit_ok)
    as [[_ ->]|(name & price & address & pin & ->)]; [now constructor|].
  cbn [snd]. constructor; try assumption; [now split|].
  intros sp Hin. proj_db. unfold update_lot.
  rewrite update_by_keys by reflexivity. now apply Hlt.
Qed.

Lemma empty_db_consistent : consistent empty_db.
Proof.
  constructor.
  - intros sp [].
  - intros uid. unfold user_open_count. simpl. lia.
  - intros r [].
  - split; constructor.
  - intros sp [].
  - intros l. exists EmptyString, 0. reflexivity.
Qed.

Lemma handle_consistent db rq commit_ok :
  consistent db -> consistent (snd (handle db rq commit_ok)).
Proof.
  destruct rq; simpl.
  - apply create_parking_lot_consistent.
  - apply edit_parking_lot_consistent.
  - apply delete_parking_lot_consistent.
  - apply book_spot_consistent.
  - apply release_spot_consistent.
Qed.

Lemma reachable_consistent db : reachable db -> consistent db.
Proof.
  induction 1 as [|db rq c _ IH]; [apply empty_db_consistent|].
  now apply handle_consistent.
Qed.

Lemma run_reachable db rqs : reachable db -> reachable (run db rqs).
Proof.
  revert db. induction rqs as [|rq rqs IH]; intros db H; simpl; [exact H|].
  apply IH. now constructor.
Qed.

(** ** Reading the ordinal back from a label *)

Lemma after_hyphen_digits u : after_hyphen (NilEmpty.string_of_uint u) = None.
Proof. induction u; simpl; rewrite ?IHu; reflexivity. Qed.

Lemma after_hyphen_zeros m s :
  after_hyphen s = None -> after_hyphen (zeros m ++ s) = None.
Proof. intros H. induction m; simpl; [exact H|]. now rewrite IHm. Qed.

Lemma after_hyphen_label p d :
  after_hyphen d = None -> after_hyphen (p ++ "-" ++ d) = Some d.
Proof.
  intros H. induction p as [|c p IH].
  - simpl. now rewrite H.
  - change (String c p ++ "-" ++ d)%string with (String c (p ++ "-" ++ d)).
    cbn [after_hyphen]. now rewrite IH.
Qed.

Lemma uint_of_zeros m s :
  NilEmpty.uint_of_string (zeros m ++ s)
  = option_map (Nat.iter m D0) (NilEmpty.uint_of_string s).
Proof.
  induction m as [|m IH].
  - simpl. now destruct (NilEmpty.uint_of_string s).
  - change (zeros (S m) ++ s)%string with (String "0" (zeros m ++ s)).
    cbn [NilEmpty.uint_of_string]. rewrite IH.
    now destruct (NilEmpty.uint_of_string s).
Qed.

Lemma of_uint_zeros m u : N.of_uint (Nat.iter m D0 u) = N.of_uint u.
Proof. induction m as [|m IH]; [reflexivity|]. simpl. exact IH. Qed.

Lemma digits_nil_empty n : digits n = NilEmpty.string_of_uint (N.to_uint n).
Proof.
  unfold digits. destruct n as [|p]; [reflexivity|]. simpl.
  pose proof (DecimalPos.Unsigned.to_uint_nonnil p) as H.
  destruct (Pos.to_uint p); [congruence|reflexivity..].
Qed.

Lemma digits_nonempty n : digits n <> EmptyString.
Proof.
  rewrite digits_nil_empty. destruct n as [|p]; [discriminate|]. simpl.
  pose proof (DecimalPos.Unsigned.to_uint_nonnil p) as H.
  destruct (Pos.to_uint p); [congruence|discriminate..].
Qed.

Lemma uint_of_padded m n :
  exists u, NilZero.uint_of_string (zeros m ++ digits n) = Some u /\
            N.of_uint u = n.
Proof.
  exists (Nat.iter m D0 (N.to_uint n)). split.
  - assert (E : NilZero.uint_of_string (zeros m ++ digits n)
                = NilEmpty.uint_of_string (zeros m ++ digits n)).
    { pose proof (digits_nonempty n) as Hne.
      destruct m; simpl; [|reflexivity].
      destruct (digits n); [congruence|reflexivity]. }
    rewrite E, uint_of_zeros, digits_nil_empty, NilEmpty.usu. reflexivity.
  - rewrite of_uint_zeros. apply DecimalN.Unsigned.of_to.
Qed.

(** The ordinal read from the label printed for [k] is [k]. *)
Lemma ordinal_of_spot_label name k :
  0 <= k -> ordinal_of_label (spot_label name k) = Some k.
Proof.
  intros Hk. unfold ordinal_of_label, spot_label, format_03d.
  destruct (Z.ltb_spec k 0); [lia|]. unfold zfill.
  rewrite after_hyphen_label.
  - destruct (uint_of_padded (3 - String.length (digits (Z.abs_N k)))
                             (Z.abs_N k)) as (u & -> & ->).
    f_equal. rewrite N2Z.inj_abs_N. lia.
  - apply after_hyphen_zeros. rewrite digits_nil_empty.
    apply after_hyphen_digits.
Qed.

Lemma ordinals_of_labels name a b :
  0 <= a ->
  map ordinal_of_label (map (spot_label name) (range a b))
  = map Some (range a b).
Proof.
  intros Ha. rewrite map_map. apply map_ext_in. intros k Hk.
  apply in_range in Hk. apply ordinal_of_spot_label. lia.
Qed.

(** ** Lookups after an update *)

Lemma find_update_by_same {T : Type} (key : T -> Z) k f (l : list T) :
  (forall x, key (f x) = key x) ->
  find (fun x => key x =? k) (update_by key k f l)
  = option_map f (find (fun x => key x =? k) l).
Proof.
  intros Hf. unfold update_by. induction l as [|a l IH]; simpl; [reflexivity|].
  destruct (Z.eqb_spec (key a) k) as [E|E].
  - rewrite Hf. destruct (Z.eqb_spec (key a) k); [reflexivity|contradiction].
  - destruct (Z.eqb_spec (key a) k); [contradiction|exact IH].
Qed.

Lemma find_by_key {T : Type} (key : T -> Z) (l : list T) (x : T) :
  NoDup (map key l) -> In x l -> find (fun y => key y =? key x) l = Some x.
Proof.
  induction l as [|a l IH]; simpl; intros Hnd Hin; [destruct Hin|].
  inversion Hnd as [|? ? Hnot Hnd']; subst.
  destruct Hin as [->|Hin]; [now rewrite Z.eqb_refl|].
  destruct (Z.eqb_spec (key a) (key x)) as [E|E]; [|now apply IH].
  exfalso. apply Hnot. rewrite E. now apply in_map.
Qed.

Lemma find_app_none {T : Type} (P : T -> bool) (l l' : list T) :
  find P l = None -> find P (l ++ l') = find P l'.
Proof.
  induction l as [|a l IH]; simpl; [reflexivity|].
  destruct (P a); [discriminate|exact IH].
Qed.

Lemma get_spot_unique db sp :
  keys_ascending db -> In sp (spots db) ->
  get_spot db (ParkingSpot.id sp) = Some sp.
Proof.
  intros [Hk _] Hin. unfold get_spot.
  apply (find_by_key ParkingSpot.id); [now apply ascending_NoDup|exact Hin].
Qed.

(** After a release the user holds no open reservation. *)
Lemma released_user_idle db u now r :
  consistent db -> active_reservation db (User.id u) = Some r ->
  active_reservation
    (mkDB (lots db)
          (match get_spot db (ParkingReservation.spot_id r) with
           | Some sp => update_spot (ParkingSpot.id sp)
                                    (ParkingSpot.with_status A) (spots db)
           | None => spots db
           end)
          (update_reservation (ParkingReservation.id r)
                              (ParkingReservation.close now) (reservations db)))
    (User.id u) = None.
Proof.
  intros [_ Hus _ [_ Hk] _ _] Ha.
  destruct (active_reservation_some _ _ _ Ha) as (Hr & Hu & Ho).
  apply active_reservation_none. unfold user_open_count, update_reservation.
  proj_db.
  pose proof (count_update_by ParkingReservation.id (open_for_user (User.id u))
                (ParkingReservation.close now) _ r (ascending_NoDup _ Hk) Hr) as H.
  rewrite open_for_user_close in H. unfold open_for_user at 2 in H.
  rewrite Hu, Z.eqb_refl, Ho in H. simpl in H.
  specialize (Hus (User.id u)). unfold user_open_count in Hus. lia.
Qed.

(** A response of [book_spot] that names a spot comes with the booking. *)
Lemma book_spot_booked db u lot_id now commit_ok sn ln db1 :
  book_spot db u lot_id now commit_ok = (Booked sn ln, db1) ->
  exists lot sp,
    User.role u = user /\
    active_reservation db (User.id u) = None /\
    get_lot db lot_id = Some lot /\
    hd_error (spots_by db lot_id A) = Some sp /\
    sn = ParkingSpot.spot_number sp /\
    db1 = mkDB (lots db)
            (update_spot (ParkingSpot.id sp) (ParkingSpot.with_status O) (spots db))
            (reservations db ++
               [ParkingReservation.mk
                  (next_id (map ParkingReservation.id (reservations db)))
                  (ParkingSpot.id sp) (User.id u) now None
                  (ParkingLot.price lot) None]).
Proof.
  intros H. destruct (book_spot_effect db u lot_id now commit_ok)
    as [[F _]|(lot & sp & H1 & H2 & H3 & H4 & _ & E)].
  - rewrite H in F. discriminate.
  - rewrite H in E. injection E as -> _ ->. exists lot, sp. auto 10.
Qed.

Lemma release_spot_released db u now commit_ok name cost db1 :
  release_spot db u now commit_ok = (Released name cost, db1) ->
  exists r,
    User.role u = user /\
    active_reservation db (User.id u) = Some r /\
    db1 = mkDB (lots db)
            (match get_spot db (ParkingReservation.spot_id r) with
             | Some sp => update_spot (ParkingSpot.id sp)
                                      (ParkingSpot.with_status A) (spots db)
             | None => spots db
             end)
            (update_reservation (ParkingReservation.id r)
                                (ParkingReservation.close now) (reservations db)).
Proof.
  intros H. destruct (release_spot_effect db u now commit_ok)
    as [[F _]|(r & H1 & H2 & _ & E)].
  - rewrite H in F. discriminate.
  - rewrite H in E. injection E as _ _ ->. exists r. auto.
Qed.

(** The user who has just booked releases that booking. *)
Lemma release_after_book db u now sp rid t1 rate :
  User.role u = user ->
  active_reservation db (User.id u) = None ->
  keys_ascending db -> In sp (spots db) ->
  let r := ParkingReservation.mk rid (ParkingSpot.id sp) (User.id u) t1 None
                                 rate None in
  let db1 := mkDB (lots db)
               (update_spot (ParkingSpot.id sp) (ParkingSpot.with_status O)
                            (spots db))
               (reservations db ++ [r]) in
  get_spot db1 (ParkingSpot.id sp) = Some (ParkingSpot.with_status O sp) /\
  release_spot db1 u now true =
    (Released (Some (ParkingSpot.spot_number sp))
              (ParkingReservation.total_cost (ParkingReservation.close now r)),
     mkDB (lots db)
          (update_spot (ParkingSpot.id sp) (ParkingSpot.with_status A)
                       (spots db1))
          (update_reservation rid (ParkingReservation.close now)
                              (reservations db1))) /\
  get_spot (snd (release_spot db1 u now true)) (ParkingSpot.id sp)
  = Some (ParkingSpot.with_status A sp).
Proof.
  intros Hrole Hnone Hk Hin r db1.
  assert (Hg1 : get_spot db1 (ParkingSpot.id sp)
                = Some (ParkingSpot.with_status O sp)).
  { unfold get_spot, db1, update_spot. proj_db.
    rewrite find_update_by_same by reflexivity.
    fold (get_spot db (ParkingSpot.id sp)).
    now rewrite (get_spot_unique db sp Hk Hin). }
  assert (Ha1 : active_reservation db1 (User.id u) = Some r).
  { unfold active_reservation, db1. proj_db.
    unfold active_reservation in Hnone. rewrite (find_app_none _ _ _ Hnone).
    simpl. unfold open_for_user. simpl. now rewrite Z.eqb_refl. }
  assert (E : release_spot db1 u now true =
    (Released (Some (ParkingSpot.spot_number sp))
              (ParkingReservation.total_cost (ParkingReservation.close now r)),
     mkDB (lots db)
          (update_spot (ParkingSpot.id sp) (ParkingSpot.with_status A)
                       (spots db1))
          (update_reservation rid (ParkingReservation.close now)
                              (reservations db1)))).
  { unfold release_spot. rewrite Hrole. cbn [role_eqb negb]. rewrite Ha1.
    cbn [ParkingReservation.spot_id r]. rewrite Hg1. reflexivity. }
  split; [exact Hg1|]. split; [exact E|].
  rewrite E. cbn [snd]. unfold get_spot, update_spot. cbn [spots].
  rewrite find_update_by_same by reflexivity.
  fold (get_spot db1 (ParkingSpot.id sp)). rewrite Hg1. reflexivity.
Qed.

(** ** The scenario is reachable *)

Lemma mall_db_reachable : reachable mall_db.
Proof. apply run_reachable. constructor. Qed.

Lemma parked_db_reachable : reachable parked_db.
Proof. apply run_reachable. exact mall_db_reachable. Qed.

(** ** The specification's claims *)

(** C1. In every reachable state a spot is Occupied if and only if exactly
    one reservation referencing it has no departure time, and Available
    otherwise (then none has).  Book and Release lead to states with the
    same property.  A user of role 'user' without open reservation who
    books on a lot with an Available spot gets that spot: Book answers
    with its label and the spot goes from Available to Occupied, with one
    open reservation on it; the same user's Release then answers with the
    label and the spot is Available again, with no open reservation. *)
Theorem spot_status_book_release (db : DB) :
  reachable db ->
  spot_status_invariant db /\
  (forall u lot_id now commit_ok,
     spot_status_invariant (snd (book_spot db u lot_id now commit_ok))) /\
  (forall u now commit_ok,
     spot_status_invariant (snd (release_spot db u now commit_ok))) /\
  (forall u lot_id t1 t2 lot sp,
     User.role u = user ->
     active_reservation db (User.id u) = None ->
     get_lot db lot_id = Some lot ->
     hd_error (spots_by db lot_id A) = Some sp ->
     exists db1 cost db2,
       get_spot db (ParkingSpot.id sp) = Some sp /\
       ParkingSpot.status sp = A /\
       open_count db (ParkingSpot.id sp) = 0%nat /\
       book_spot db u lot_id t1 true
       = (Booked (ParkingSpot.spot_number sp)
                 (ParkingLot.prime_location_name lot), db1) /\
       get_spot db1 (ParkingSpot.id sp)
       = Some (ParkingSpot.with_status O sp) /\
       open_count db1 (ParkingSpot.id sp) = 1%nat /\
       spot_status_invariant db1 /\
       release_spot db1 u t2 true
       = (Released (Some (ParkingSpot.spot_number sp)) (Some cost), db2) /\
       get_spot db2 (ParkingSpot.id sp)
       = Some (ParkingSpot.with_status A sp) /\
       open_count db2 (ParkingSpot.id sp) = 0%nat /\
       spot_status_invariant db2) /\
  (forall u lot_id t1 t2 sn ln db1,
     book_spot db u lot_id t1 true = (Booked sn ln, db1) ->
     exists sp cost db2,
       In sp (spots db) /\ ParkingSpot.spot_number sp = sn /\
       ParkingSpot.lot_id sp = lot_id /\
       get_spot db (ParkingSpot.id sp) = Some sp /\
       ParkingSpot.status sp = A /\
       option_map ParkingSpot.status (get_spot db1 (ParkingSpot.id sp)) = Some O /\
       release_spot db1 u t2 true = (Released (Some sn) (Some cost), db2) /\
       option_map ParkingSpot.status (get_spot db2 (ParkingSpot.id sp)) = Some A).
Proof.
  intros Hreach. pose proof (reachable_consistent db Hreach) as Hc.
  split; [apply Hc|]. split; [|split; [|split]].
  - intros u lot_id now c. apply (book_spot_consistent db u lot_id now c Hc).
  - intros u now c. apply (release_spot_consistent db u now c Hc).
  - intros u lot_id t1 t2 lot sp Hrole Hnone Hlot Hsp.
    destruct (first_available _ _ _ Hsp) as (Hin & Hl & HA).
    assert (Hbook : book_spot db u lot_id t1 true =
      (Booked (ParkingSpot.spot_number sp) (ParkingLot.prime_location_name lot),
       mkDB (lots db)
            (update_spot (ParkingSpot.id sp) (ParkingSpot.with_status O)
                         (spots db))
            (reservations db ++
               [ParkingReservation.mk
                  (next_id (map ParkingReservation.id (reservations db)))
                  (ParkingSpot.id sp) (User.id u) t1 None
                  (ParkingLot.price lot) None]))).
    { unfold book_spot. rewrite Hrole. cbn [role_eqb negb].
      now rewrite Hnone, Hlot, Hsp. }
    pose proof (book_spot_consistent db u lot_id t1 true Hc) as Hc1.
    rewrite Hbook in Hc1. cbn [snd] in Hc1.
    destruct (release_after_book db u t2 sp
                (next_id (map ParkingReservation.id (reservations db)))
                t1 (ParkingLot.price lot) Hrole Hnone (inv_keys db Hc) Hin)
      as (Hg1 & Hrel & Hg2).
    cbv zeta in Hg1, Hrel, Hg2.
    match type of Hc1 with consistent ?d => set (db1 := d) in * end.
    pose proof (release_spot_consistent db1 u t2 true Hc1) as Hc2.
    rewrite Hrel in Hc2, Hg2. cbn [snd] in Hc2, Hg2.
    match type of Hc2 with consistent ?d => set (db2 := d) in * end.
    exists db1, (ParkingReservation.calculate_total_cost t2
      (ParkingReservation.mk
         (next_id (map ParkingReservation.id (reservations db)))
         (ParkingSpot.id sp) (User.id u) t1 (Some t2)
         (ParkingLot.price lot) None)), db2.
    split; [now apply get_spot_unique; [apply Hc|]|].
    split; [exact HA|].
    split; [now apply (inv_status db Hc sp Hin)|].
    split; [exact Hbook|]. split; [exact Hg1|].
    split.
    { destruct (get_spot_some _ _ _ Hg1) as [Hin1 _].
      now apply (inv_status db1 Hc1 _ Hin1). }
    split; [apply Hc1|]. split; [exact Hrel|]. split; [exact Hg2|].
    split; [|apply Hc2].
    destruct (get_spot_some _ _ _ Hg2) as [Hin2 _].
    now apply (inv_status db2 Hc2 _ Hin2).
  - intros u lot_id t1 t2 sn ln db1 Hbook.
    apply book_spot_booked in Hbook.
    destruct Hbook as (lot & sp & Hrole & Hnone & Hlot & Hsp & -> & ->).
    destruct (first_available _ _ _ Hsp) as (Hin & Hl & HA).
    destruct (release_after_book db u t2 sp
                (next_id (map ParkingReservation.id (reservations db)))
                t1 (ParkingLot.price lot) Hrole Hnone (inv_keys db Hc) Hin)
      as (Hg1 & Hrel & Hg2).
    eexists sp, _, _. repeat split; try assumption.
    + now apply get_spot_unique; [apply Hc|].
    + rewrite Hg1. reflexivity.
    + exact Hrel.
    + rewrite Hrel in Hg2. cbn [snd] in Hg2. rewrite Hg2. reflexivity.
Qed.

Lemma spot_status_book_release_witness :
  reachable mall_db /\
  spot_status_invariant mall_db /\
  book_spot mall_db a_driver 1 0 true = (Booked "MAL-001" "Mall", parked_db) /\
  get_spot mall_db 1 = Some (ParkingSpot.mk 1 1 "MAL-001" A) /\
  get_spot parked_db 1 = Some (ParkingSpot.mk 1 1 "MAL-001" O) /\
  open_count parked_db 1 = 1%nat /\
  spot_status_invariant parked_db /\
  fst (release_spot parked_db a_driver 9000000000 true)
  = Released (Some "MAL-001"%string) (Some 25%Q) /\
  get_spot (snd (release_spot parked_db a_driver 9000000000 true)) 1
  = Some (ParkingSpot.mk 1 1 "MAL-001" A) /\
  open_count (snd (release_spot parked_db a_driver 9000000000 true)) 1 = 0%nat /\
  spot_status_invariant (snd (release_spot parked_db a_driver 9000000000 true)).
Proof.
  split; [exact mall_db_reachable|].
  destruct (spot_status_book_release mall_db mall_db_reachable)
    as (Hinv & _ & _ & Htrip & _).
  split; [exact Hinv|].
  destruct (Htrip a_driver 1 0 9000000000
              (ParkingLot.mk 1 "Mall" 10 "1 Main Street" "560001" 2)
              (ParkingSpot.mk 1 1 "MAL-001" A)
              eq_refl eq_refl eq_refl eq_refl)
    as (db1 & cost & db2 & H0 & _ & _ & Hb & H1 & Hn1 & Hi1 & Hr & H2 & Hn2 & Hi2).
  assert (E1 : db1 = parked_db) by exact (eq_sym (f_equal snd Hb)).
  subst db1.
  assert (E2 : db2 = snd (release_spot parked_db a_driver 9000000000 true))
    by (rewrite Hr; reflexivity).
  subst db2.
  split; [exact Hb|]. split; [exact H0|]. split; [exact H1|].
  split; [exact Hn1|]. split; [exact Hi1|].
  split; [reflexivity|]. split; [exact H2|]. split; [exact Hn2|exact Hi2].
Defined.

(** C2. In every reachable state each user has at most one reservation
    without a departure time, and [book_spot] called by a user who holds an
    open reservation answers AlreadyParked and leaves every table as it
    was. *)
Theorem one_open_reservation_per_user (db : DB) :
  reachable db ->
  (forall uid, (user_open_count db uid <= 1)%nat) /\
  (forall u lot_id now commit_ok,
     User.role u = user ->
     active_reservation db (User.id u) <> None ->
     book_spot db u lot_id now commit_ok = (AlreadyParked, db)).
Proof.
  intros Hreach. split.
  - apply (inv_user db (reachable_consistent db Hreach)).
  - intros u lot_id now c Hrole Hopen. unfold book_spot. rewrite Hrole.
    cbn [role_eqb negb].
    destruct (active_reservation db (User.id u)); [reflexivity|congruence].
Qed.

Lemma one_open_reservation_per_user_witness :
  reachable parked_db /\
  (user_open_count parked_db 2 <= 1)%nat /\
  book_spot parked_db a_driver 1 5 true = (AlreadyParked, parked_db).
Proof.
  split; [exact parked_db_reachable|].
  destruct (one_open_reservation_per_user parked_db parked_db_reachable)
    as [H1 H2].
  split; [apply H1|]. apply H2; [reflexivity|discriminate].
Defined.

(** C8. After a successful Release the same user's next Release answers
    NoActiveReservation and changes nothing: no reservation row, spot
    status or cost is touched. *)
Theorem release_twice (db : DB) (u : User.t) (t1 : Z) (commit_ok : bool)
    (name : option string) (cost : option Q) (db1 : DB) :
  reachable db ->
  release_spot db u t1 commit_ok = (Released name cost, db1) ->
  active_reservation db1 (User.id u) = None /\
  forall t2 commit_ok2,
    release_spot db1 u t2 commit_ok2 = (NoActiveReservation, db1).
Proof.
  intros Hreach Hrel. pose proof (reachable_consistent db Hreach) as Hc.
  apply release_spot_released in Hrel. destruct Hrel as (r & Hrole & Ha & ->).
  pose proof (released_user_idle db u t1 r Hc Ha) as Hidle.
  split; [exact Hidle|]. intros t2 c2. unfold release_spot.
  rewrite Hrole. cbn [role_eqb negb]. now rewrite Hidle.
Qed.

Lemma release_twice_witness :
  reachable parked_db /\
  release_spot (snd (release_spot parked_db a_driver 9000000000 true))
               a_driver 9000000001 true
  = (NoActiveReservation, snd (release_spot parked_db a_driver 9000000000 true)).
Proof.
  split; [exact parked_db_reachable|].
  eapply (release_twice parked_db a_driver 9000000000 true);
    [exact parked_db_reachable|reflexivity].
Defined.

(** ** Rounding and signs *)










(** ** First fit *)

Lemma spots_by_nested db lot_id st :
  spots_by db lot_id st
  = filter (fun sp => status_eqb (ParkingSpot.status sp) st)
           (filter (in_lot lot_id) (spots db)).
Proof.
  unfold spots_by, in_lot_with, in_lot.
  induction (spots db) as [|a l IH]; simpl; [reflexivity|].
  destruct (ParkingSpot.lot_id a =? lot_id); simpl; [|exact IH].
  destruct (status_eqb (ParkingSpot.status a) st); now rewrite IH.
Qed.

(** In a list numbered in ascending order, the first element that passes a
    filter carries the least number among those that pass. *)
Lemma first_is_least {T : Type} (g : T -> option Z) (P : T -> bool)
    (l : list T) (ks : list Z) (x : T) :
  map g l = map Some ks -> ascending ks ->
  hd_error (filter P l) = Some x ->
  exists k, g x = Some k /\
    forall y, In y (filter P l) -> exists k', g y = Some k' /\ k <= k'.
Proof.
  revert ks. induction l as [|a l IH]; intros ks Hmap Hasc Hhd;
    [discriminate|].
  destruct ks as [|ka ks]; [discriminate|].
  simpl in Hmap. injection Hmap as Ha Hmap.
  inversion Hasc as [|? ? Hasc' Hlt]; subst.
  assert (Htail : forall y, In y l -> exists k', g y = Some k' /\ ka < k').
  { intros y Hy. apply (in_map g) in Hy. rewrite Hmap in Hy.
    apply in_map_iff in Hy. destruct Hy as (k' & E & Hk').
    exists k'. split; [now symmetry|].
    rewrite Forall_forall in Hlt. now apply Hlt. }
  simpl in *. destruct (P a).
  - injection Hhd as <-. exists ka. split; [exact Ha|].
    intros y [<-|Hy].
    + exists ka. split; [exact Ha|lia].
    + apply filter_In in Hy. destruct (Htail y (proj1 Hy)) as (k' & E & Hk).
      exists k'. split; [exact E|lia].
  - destruct (IH ks Hmap Hasc' Hhd) as (k & Hk & Hall).
    exists k. split; [exact Hk|exact Hall].
Qed.

Lemma lot_ordinals db lot_id :
  labels_as_created db ->
  exists n, map spot_ordinal (filter (in_lot lot_id) (spots db))
            = map Some (range 1 (n + 1)).
Proof.
  intros H. destruct (H lot_id) as (name & n & E). exists n.
  unfold spot_ordinal. rewrite <- (map_map ParkingSpot.spot_number), E.
  apply ordinals_of_labels. lia.
Qed.

(** C5. A user without open reservation books on an existing lot: when a
    spot of the lot is Available, the spot taken is the Available spot of
    the lot with the lowest ordinal; when none is, the answer is
    NoSpotsAvailable (CapacityExceeded) and the state is unchanged. *)
Theorem book_first_fit (db : DB) (u : User.t) (lot_id now : Z)
    (lot : ParkingLot.t) :
  reachable db ->
  User.role u = user ->
  active_reservation db (User.id u) = None ->
  get_lot db lot_id = Some lot ->
  (spots_by db lot_id A <> [] ->
   exists sp k,
     In sp (spots_by db lot_id A) /\
     spot_ordinal sp = Some k /\
     (forall sp', In sp' (spots_by db lot_id A) ->
        exists k', spot_ordinal sp' = Some k' /\ k <= k') /\
     book_spot db u lot_id now true =
       (Booked (ParkingSpot.spot_number sp) (ParkingLot.prime_location_name lot),
        mkDB (lots db)
             (update_spot (ParkingSpot.id sp) (ParkingSpot.with_status O)
                          (spots db))
             (reservations db ++
                [ParkingReservation.mk
                   (next_id (map ParkingReservation.id (reservations db)))
                   (ParkingSpot.id sp) (User.id u) now None
                   (ParkingLot.price lot) None]))) /\
  (spots_by db lot_id A = [] ->
   forall commit_ok,
     book_spot db u lot_id now commit_ok = (NoSpotsAvailable, db)).
Proof.
  intros Hreach Hrole Hnone Hlot.
  pose proof (reachable_consistent db Hreach) as Hc. split.
  - intros Hne. destruct (spots_by db lot_id A) as [|sp rest] eqn:Hs;
      [congruence|].
    assert (Hhd : hd_error (spots_by db lot_id A) = Some sp) by now rewrite Hs.
    destruct (lot_ordinals db lot_id (inv_labels db Hc)) as (n & Hord).
    rewrite spots_by_nested in Hhd.
    destruct (first_is_least spot_ordinal _ _ _ sp Hord
                (range_ascending 1 (n + 1)) Hhd) as (k & Hk & Hleast).
    rewrite <- spots_by_nested, Hs in Hleast.
    exists sp, k. split; [now left|]. split; [exact Hk|].
    split; [exact Hleast|].
    unfold book_spot. rewrite Hrole. cbn [role_eqb negb].
    now rewrite Hnone, Hlot, Hs.
  - intros Hs c. unfold book_spot. rewrite Hrole. cbn [role_eqb negb].
    now rewrite Hnone, Hlot, Hs.
Qed.

Lemma book_first_fit_witness :
  reachable parked_db /\
  book_spot parked_db (User.mk 3 user) 1 60 true
  = (Booked "MAL-002" "Mall",
     snd (book_spot parked_db (User.mk 3 user) 1 60 true)) /\
  book_spot (snd (book_spot parked_db (User.mk 3 user) 1 60 true))
            (User.mk 4 user) 1 90 true
  = (NoSpotsAvailable, snd (book_spot parked_db (User.mk 3 user) 1 60 true)).
Proof.
  split; [exact parked_db_reachable|]. split; [reflexivity|].
  refine (proj2 (book_first_fit
                   (snd (handle parked_db (Book (User.mk 3 user) 1 60) true))
                   (User.mk 4 user) 1 90
                   (ParkingLot.mk 1 "Mall" 10 "1 Main Street" "560001" 2)
                   (reachable_step _ _ _ parked_db_reachable)
                   eq_refl eq_refl eq_refl) eq_refl true).
Defined.

(** ** Inventory *)

Lemma truthy_nonempty (s : string) : s <> EmptyString -> truthy s = true.
Proof. destruct s; [congruence|reflexivity]. Qed.

Lemma new_spots_length base lot_id name n :
  List.length (new_spots base lot_id name n) = Z.to_nat n.
Proof.
  unfold new_spots. rewrite length_map, range_length. f_equal. lia.
Qed.

(** C6. A POST by an administrator with non-blank name, address and
    postal code, a positive price and a positive capacity [n] appends one
    lot and exactly [n] spots of that lot: their ordinals are 1..n in
    ascending order, each is Available, and each label is the first three
    characters of the name in upper case, a hyphen and the ordinal padded
    with zeros to three digits.  A call that does not answer LotCreated
    (validation failure, failed commit) persists nothing. *)
Theorem create_lot_provisions_spots (db : DB) (u : User.t) (form : Form.t)
    (price : Q) (n : Z) :
  reachable db ->
  User.role u = admin ->
  let name := strip (get_text (Form.prime_location_name form)) in
  let address := strip (get_text (Form.address form)) in
  let pin_code := strip (get_text (Form.pin_code form)) in
  let lot_id := next_id (map ParkingLot.id (lots db)) in
  name <> EmptyString -> address <> EmptyString -> pin_code <> EmptyString ->
  Form.price form = number price -> (0 < price)%Q ->
  Form.maximum_number_of_spots form = number n -> 0 < n ->
  (exists created,
     create_parking_lot db u POST form true =
       (LotCreated name n,
        mkDB (lots db ++ [ParkingLot.mk lot_id name price address pin_code n])
             (spots db ++ created) (reservations db)) /\
     List.length created = Z.to_nat n /\
     map spot_ordinal created = map Some (range 1 (n + 1)) /\
     map ParkingSpot.spot_number created
     = map (fun k => (upper (first3 name) ++ "-" ++ format_03d k)%string)
           (range 1 (n + 1)) /\
     (forall sp, In sp created ->
        ParkingSpot.status sp = A /\ ParkingSpot.lot_id sp = lot_id) /\
     filter (in_lot lot_id) (spots db ++ created) = created) /\
  create_parking_lot db u POST form false = (CreateFailed, db) /\
  (forall u' method form' commit_ok,
     succeeded (fst (create_parking_lot db u' method form' commit_ok)) = false ->
     snd (create_parking_lot db u' method form' commit_ok) = db).
Proof.
  intros Hreach Hrole name address pin_code lot_id Hn Ha Hp Hprice Hpos Hmax Hnpos.
  pose proof (reachable_consistent db Hreach) as Hc.
  assert (Hq : Qle_bool price 0 = false).
  { destruct (Qle_bool price 0) eqn:E; [|reflexivity].
    apply Qle_bool_iff in E. exfalso. now apply (Qlt_not_le _ _ Hpos). }
  assert (Hz : (n <=? 0) = false) by (apply Z.leb_gt; lia).
  assert (Hrun : forall c, create_parking_lot db u POST form c =
    if c then
      (LotCreated name n,
       mkDB (lots db ++ [ParkingLot.mk lot_id name price address pin_code n])
            (spots db ++ new_spots (next_id (map ParkingSpot.id (spots db)))
                                   lot_id name n)
            (reservations db))
    else (CreateFailed, db)).
  { intros c. unfold create_parking_lot. rewrite Hrole. cbn [role_eqb negb].
    fold name address pin_code.
    rewrite (truthy_nonempty _ Hn), (truthy_nonempty _ Ha),
      (truthy_nonempty _ Hp), Hprice, Hmax.
    cbn [filled andb negb]. rewrite Hq, Hz. cbn [orb]. reflexivity. }
  split; [|split].
  - eexists. split; [apply (Hrun true)|].
    split; [apply new_spots_length|].
    split; [|split; [|split]].
    + unfold spot_ordinal.
      rewrite <- (map_map ParkingSpot.spot_number), new_spots_labels.
      apply ordinals_of_labels. lia.
    + apply new_spots_labels.
    + intros sp Hsp. apply in_new_spots in Hsp. tauto.
    + rewrite filter_app, (filter_nil (in_lot lot_id) (spots db)).
      * apply filter_all. intros sp Hsp. apply in_new_spots in Hsp.
        unfold in_lot. apply Z.eqb_eq. tauto.
      * intros sp Hsp. unfold in_lot. apply Z.eqb_neq. intros E.
        apply (inv_lots db Hc) in Hsp. rewrite E in Hsp.
        apply next_id_above in Hsp. fold lot_id in Hsp. lia.
  - apply (Hrun false).
  - intros u' method form' c Hfail.
    destruct (create_parking_lot_effect db u' method form' c)
      as [[_ E]|(p' & n' & H)]; [exact E|].
    cbv zeta in H. destruct H as (_ & _ & _ & _ & _ & E).
    rewrite E in Hfail. discriminate.
Qed.

Lemma create_lot_provisions_spots_witness :
  reachable empty_db /\
  create_parking_lot empty_db an_admin POST mall_form true =
    (LotCreated "Mall" 2,
     mkDB [ParkingLot.mk 1 "Mall" 10 "1 Main Street" "560001" 2]
          [ParkingSpot.mk 1 1 "MAL-001" A; ParkingSpot.mk 2 1 "MAL-002" A]
          []) /\
  create_parking_lot empty_db an_admin POST mall_form false
  = (CreateFailed, empty_db).
Proof.
  split; [constructor|].
  destruct (create_lot_provisions_spots empty_db an_admin mall_form 10 2
              reachable_empty eq_refl
              ltac:(discriminate) ltac:(discriminate) ltac:(discriminate)
              eq_refl eq_refl eq_refl eq_refl) as (_ & H & _).
  split; [reflexivity|exact H].
Defined.

(** C7. Deleting an existing lot with an occupied spot answers the
    conflict message carrying the number of occupied spots and deletes
    nothing.  With no occupied spot the handler does not always delete:
    when a spot of the lot has a reservation row (a completed one), the
    flush is refused, the handler answers that the delete failed and
    nothing is deleted, whatever the commit would do.  Only a lot whose
    spots have no reservation row goes, together with all its spots, when
    the commit goes through; nothing goes when it does not. *)
Theorem delete_lot_guarded (db : DB) (u : User.t) (lot_id : Z)
    (lot : ParkingLot.t) :
  User.role u = admin ->
  get_lot db lot_id = Some lot ->
  let occupied := Z.of_nat (List.length (spots_by db lot_id O)) in
  (0 < occupied ->
   forall commit_ok,
     delete_parking_lot db u lot_id commit_ok = (CannotDelete occupied, db)) /\
  (occupied = 0 -> lot_has_reservations db lot = true ->
   forall commit_ok,
     delete_parking_lot db u lot_id commit_ok = (DeleteFailed, db)) /\
  (occupied = 0 -> lot_has_reservations db lot = false ->
   let db' := mkDB (filter (fun l => negb (ParkingLot.id l =? lot_id)) (lots db))
                   (filter (fun sp => negb (in_lot lot_id sp)) (spots db))
                   (reservations db) in
   delete_parking_lot db u lot_id true
   = (LotDeleted (ParkingLot.prime_location_name lot), db') /\
   get_lot db' lot_id = None /\
   filter (in_lot lot_id) (spots db') = [] /\
   delete_parking_lot db u lot_id false = (DeleteFailed, db)).
Proof.
  intros Hrole Hlot occupied.
  destruct (get_lot_some _ _ _ Hlot) as [_ Hid].
  split; [|split].
  - intros Hocc c. unfold delete_parking_lot. rewrite Hrole.
    cbn [role_eqb negb]. rewrite Hlot. fold occupied.
    destruct (Z.gtb_spec occupied 0); [reflexivity|lia].
  - intros Hocc Hh c. unfold delete_parking_lot. rewrite Hrole.
    cbn [role_eqb negb]. rewrite Hlot, Hh. fold occupied.
    destruct (Z.gtb_spec occupied 0); [lia|reflexivity].
  - intros Hocc Hh db'.
    assert (Hrun : forall c, delete_parking_lot db u lot_id c =
              if c then (LotDeleted (ParkingLot.prime_location_name lot), db')
              else (DeleteFailed, db)).
    { intros c. unfold delete_parking_lot. rewrite Hrole.
      cbn [role_eqb negb]. rewrite Hlot, Hh. fold occupied. rewrite Hid.
      destruct (Z.gtb_spec occupied 0); [lia|reflexivity]. }
    split; [apply (Hrun true)|]. split; [|split; [|apply (Hrun false)]].
    + unfold get_lot, db'. proj_db.
      destruct (find _ _) as [l|] eqn:F; [|reflexivity].
      apply find_some in F. destruct F as [F1 F2].
      apply filter_In in F1. destruct F1 as [_ F1].
      rewrite F2 in F1. discriminate.
    + unfold db'. proj_db. rewrite filter_in_lot_removed.
      now rewrite Z.eqb_refl.
Qed.

(** The failing input of C7: the driver has parked on "Mall" and left; no
    spot is Occupied, and the delete is refused with nothing deleted.  A
    lot with a parked driver answers the conflict with count 1, and the
    never-booked lot is deleted with both its spots. *)
Lemma delete_lot_guarded_witness :
  let left_db := run parked_db [Release a_driver 9000000000] in
  reachable left_db /\
  spots_by left_db 1 O = [] /\
  delete_parking_lot left_db an_admin 1 true = (DeleteFailed, left_db) /\
  delete_parking_lot parked_db an_admin 1 true = (CannotDelete 1, parked_db) /\
  delete_parking_lot mall_db an_admin 1 true = (LotDeleted "Mall", empty_db).
Proof.
  cbv zeta.
  split; [apply run_reachable; exact parked_db_reachable|].
  split; [reflexivity|]. split; [|split].
  - exact (proj1 (proj2 (delete_lot_guarded
                    (run parked_db [Release a_driver 9000000000]) an_admin 1
                    (ParkingLot.mk 1 "Mall" 10 "1 Main Street" "560001" 2)
                    eq_refl eq_refl)) eq_refl eq_refl true).
  - exact (proj1 (delete_lot_guarded parked_db an_admin 1
                    (ParkingLot.mk 1 "Mall" 10 "1 Main Street" "560001" 2)
                    eq_refl eq_refl) eq_refl true).
  - exact (proj1 (proj2 (proj2 (delete_lot_guarded mall_db an_admin 1
                    (ParkingLot.mk 1 "Mall" 10 "1 Main Street" "560001" 2)
                    eq_refl eq_refl)) eq_refl eq_refl)).
Defined.

Lemma update_by_preserves {T V : Type} (key : T -> Z) (g : T -> V) k f
    (l : list T) :
  (forall x, g (f x) = g x) -> map g (update_by key k f l) = map g l.
Proof.
  intros Hf. unfold update_by. rewrite map_map. apply map_ext.
  intros x. destruct (key x =? k); auto.
Qed.

(** C9. An edit touches the name, price, address and postal code of the
    lot with the given key and nothing else: keys and capacities of all
    lots, every other lot, the spots table and the reservations table
    (hence every captured rate) are as before. *)
Theorem edit_lot_frame (db : DB) (u : User.t) (lot_id : Z) (method : Method)
    (form : Form.t) (commit_ok : bool) :
  let db' := snd (edit_parking_lot db u lot_id method form commit_ok) in
  spots db' = spots db /\
  reservations db' = reservations db /\
  map ParkingReservation.parking_cost_per_unit_time (reservations db')
  = map ParkingReservation.parking_cost_per_unit_time (reservations db) /\
  map ParkingLot.id (lots db') = map ParkingLot.id (lots db) /\
  map ParkingLot.maximum_number_of_spots (lots db')
  = map ParkingLot.maximum_number_of_spots (lots db) /\
  (forall l, In l (lots db) -> ParkingLot.id l <> lot_id -> In l (lots db')).
Proof.
  cbv zeta.
  destruct (edit_parking_lot_effect db u lot_id method form commit_ok)
    as [[_ ->]|(name & price & address & pin & ->)].
  - repeat split; auto.
  - cbn [snd]. proj_db. unfold update_lot. repeat split.
    + now apply update_by_preserves.
    + now apply update_by_preserves.
    + intros l Hl Hne. apply in_update_by. exists l. split; [exact Hl|].
      destruct (Z.eqb_spec (ParkingLot.id l) lot_id); [contradiction|reflexivity].
Qed.

(** C10 (as the code has it).  [edit_parking_lot] never answers a
    validation message.  For an existing lot and a form whose price key is
    absent or whose price text is a number, it stores the name, address
    and postal code as read from the form (trimmed, possibly empty) and
    the price read from the form whatever its sign, 0 when the key is
    absent.  For a form whose price text is empty or not a number, [float]
    raises outside any handler: the answer is a server error and nothing
    of the form is stored.  [create_parking_lot] answers a validation
    message for a blank field or a non-positive number. *)
Theorem edit_lot_no_validation (db : DB) (u : User.t) (lot_id : Z)
    (method : Method) (form : Form.t) (commit_ok : bool) :
  is_validation_error
    (fst (edit_parking_lot db u lot_id method form commit_ok)) = false /\
  (forall lot price,
     User.role u = admin ->
     get_lot db lot_id = Some lot ->
     Form.price form = number price \/
       (Form.price form = missing /\ price = 0%Q) ->
     let name := strip (get_text (Form.prime_location_name form)) in
     let address := strip (get_text (Form.address form)) in
     let pin_code := strip (get_text (Form.pin_code form)) in
     edit_parking_lot db u lot_id POST form true =
       (LotUpdated,
        mkDB (update_lot lot_id (edited name price address pin_code) (lots db))
             (spots db) (reservations db)) /\
     get_lot (snd (edit_parking_lot db u lot_id POST form true)) lot_id
     = Some (ParkingLot.mk lot_id name price address pin_code
                           (ParkingLot.maximum_number_of_spots lot))) /\
  (forall u' form' commit_ok',
     User.role u' = admin ->
     strip (get_text (Form.prime_location_name form')) = EmptyString \/
     strip (get_text (Form.address form')) = EmptyString \/
     strip (get_text (Form.pin_code form')) = EmptyString \/
     (exists p, Form.price form' = number p /\ (p <= 0)%Q) \/
     (exists k, Form.maximum_number_of_spots form' = number k /\ k <= 0) ->
     is_validation_error
       (fst (create_parking_lot db u' POST form' commit_ok')) = true) /\
  (forall lot,
     User.role u = admin ->
     get_lot db lot_id = Some lot ->
     Form.price form = empty \/ Form.price form = malformed ->
     forall commit_ok',
       edit_parking_lot db u lot_id POST form commit_ok'
       = (InternalServerError, db)).
Proof.
  split; [|split; [|split]].
  - unfold edit_parking_lot.
    destruct (role_eqb (User.role u) admin); [|reflexivity].
    destruct (get_lot db lot_id); [|reflexivity].
    destruct method; [reflexivity|].
    destruct (Form.price form); try reflexivity; now destruct commit_ok.
  - intros lot price Hrole Hlot Hprice name address pin_code.
    destruct (get_lot_some _ _ _ Hlot) as [_ Hid].
    assert (E : edit_parking_lot db u lot_id POST form true =
      (LotUpdated,
       mkDB (update_lot lot_id (edited name price address pin_code) (lots db))
            (spots db) (reservations db))).
    { unfold edit_parking_lot. rewrite Hrole. cbn [role_eqb negb].
      rewrite Hlot, Hid.
      destruct Hprice as [->|[-> ->]]; reflexivity. }
    split; [exact E|]. rewrite E. cbn [snd]. unfold get_lot, update_lot.
    proj_db. rewrite find_update_by_same by reflexivity.
    fold (get_lot db lot_id). rewrite Hlot. cbn [option_map].
    unfold edited. now rewrite Hid.
  - intros u' form' c' Hrole H. unfold create_parking_lot. rewrite Hrole.
    cbn [role_eqb negb].
    destruct (negb _) eqn:Hfilled; [reflexivity|].
    apply negb_false_iff in Hfilled.
    repeat (apply andb_true_iff in Hfilled; destruct Hfilled as [Hfilled ?]).
    destruct H as [H|[H|[H|[(p & Hp & Hle)|(k & Hk & Hle)]]]];
      try (rewrite H in *; discriminate).
    + rewrite Hp. destruct (Form.maximum_number_of_spots form');
        try reflexivity.
      apply Qle_bool_iff in Hle. now rewrite Hle.
    + rewrite Hk. destruct (Form.price form'); try reflexivity.
      apply Z.leb_le in Hle. rewrite Hle, orb_true_r. reflexivity.
  - intros lot Hrole Hlot Hprice c. unfold edit_parking_lot. rewrite Hrole.
    cbn [role_eqb negb]. rewrite Hlot.
    destruct Hprice as [->| ->]; reflexivity.
Qed.

Lemma edit_lot_no_validation_witness :
  edit_parking_lot mall_db an_admin 1 POST
    (Form.mk (Some "   "%string) (number (-5 # 1)) None (Some ""%string)
             malformed) true
  = (LotUpdated,
     mkDB [ParkingLot.mk 1 "" (-5 # 1) "" "" 2]
          [ParkingSpot.mk 1 1 "MAL-001" A; ParkingSpot.mk 2 1 "MAL-002" A]
          []) /\
  is_validation_error
    (fst (create_parking_lot mall_db an_admin POST
            (Form.mk (Some "   "%string) (number (-5 # 1)) None
                     (Some ""%string) malformed) true)) = true /\
  edit_parking_lot mall_db an_admin 1 POST
    (Form.mk (Some "Plaza"%string) malformed (Some "2 Side Street"%string)
             (Some "560002"%string) missing) true
  = (InternalServerError, mall_db).
Proof.
  pose proof (edit_lot_no_validation mall_db an_admin 1 POST
    (Form.mk (Some "   "%string) (number (-5 # 1)) None (Some ""%string)
             malformed) true) as (_ & H & Hc & _).
  split; [|split].
  - exact (proj1 (H (ParkingLot.mk 1 "Mall" 10 "1 Main Street" "560001" 2)
                    (-5 # 1) eq_refl eq_refl (or_introl eq_refl))).
  - apply Hc; [reflexivity|]. left. reflexivity.
  - exact (proj2 (proj2 (proj2
      (edit_lot_no_validation mall_db an_admin 1 POST
         (Form.mk (Some "Plaza"%string) malformed (Some "2 Side Street"%string)
                  (Some "560002"%string) missing) true)))
      (ParkingLot.mk 1 "Mall" 10 "1 Main Street" "560001" 2)
      eq_refl eq_refl (or_intror eq_refl) true).
Defined.

(** C10 as stated fails: the administrator submits the edit form for
    "Mall" with the price box left empty.  The form is not stored: the
    answer is a server error and the lot keeps its name, price, address
    and postal code. *)
Lemma edit_with_empty_price_counterexample :
  let form := Form.mk (Some "Plaza"%string) empty
                      (Some "2 Side Street"%string) (Some "560002"%string)
                      missing in
  get_lot mall_db 1
  = Some (ParkingLot.mk 1 "Mall" 10 "1 Main Street" "560001" 2) /\
  edit_parking_lot mall_db an_admin 1 POST form true
  = (InternalServerError, mall_db) /\
  get_lot (snd (edit_parking_lot mall_db an_admin 1 POST form true)) 1
  = Some (ParkingLot.mk 1 "Mall" 10 "1 Main Street" "560001" 2) /\
  strip "Plaza" <> "Mall"%string.
Proof.
  cbv zeta. repeat split. discriminate.
Qed.

(** ** Capacity *)

Lemma length_in_lot_update lot_id k st (l : list ParkingSpot.t) :
  List.length (filter (in_lot lot_id)
                      (update_spot k (ParkingSpot.with_status st) l))
  = List.length (filter (in_lot lot_id) l).
Proof.
  rewrite <- (length_map ParkingSpot.spot_number), labels_update_spot.
  apply length_map.
Qed.

Lemma handle_capacity db rq commit_ok :
  consistent db -> capacity_matches db ->
  capacity_matches (snd (handle db rq commit_ok)).
Proof.
  intros Hc Hcap. destruct rq as [u m f|u l m f|u l|u l now|u now]; simpl.
  - destruct (create_parking_lot_effect db u m f commit_ok)
      as [[_ ->]|(price & n & H)]; [exact Hcap|].
    cbv zeta in H. destruct H as (_ & _ & Hn & _ & _ & ->). cbn [snd].
    intros lot Hlot. unfold lot_spots. proj_db.
    rewrite filter_app, length_app.
    apply in_app_iff in Hlot. destruct Hlot as [Hlot|[<-|[]]].
    + rewrite (filter_nil _ (new_spots _ _ _ _)).
      * simpl. rewrite Nat.add_0_r. now apply Hcap.
      * intros sp Hsp. apply in_new_spots in Hsp. destruct Hsp as (E & _).
        unfold in_lot. apply Z.eqb_neq. rewrite E. intros E'.
        apply (in_map ParkingLot.id) in Hlot. apply next_id_above in Hlot. lia.
    + cbn [ParkingLot.id ParkingLot.maximum_number_of_spots].
      rewrite (filter_nil _ (spots db)).
      * rewrite filter_all, new_spots_length; [simpl; lia|].
        intros sp Hsp. apply in_new_spots in Hsp. unfold in_lot.
        apply Z.eqb_eq. tauto.
      * intros sp Hsp. unfold in_lot. apply Z.eqb_neq. intros E.
        apply (inv_lots db Hc) in Hsp. rewrite E in Hsp.
        apply next_id_above in Hsp. lia.
  - destruct (edit_parking_lot_effect db u l m f commit_ok)
      as [[_ ->]|(name & price & address & pin & ->)]; [exact Hcap|].
    cbn [snd]. intros lot Hlot. unfold lot_spots in *. proj_db.
    unfold update_lot in Hlot. apply in_update_by in Hlot.
    destruct Hlot as (lot0 & Hlot0 & ->).
    destruct (ParkingLot.id lot0 =? l); [|now apply Hcap].
    cbn [edited ParkingLot.id ParkingLot.maximum_number_of_spots].
    now apply Hcap.
  - destruct (delete_parking_lot_effect db u l commit_ok)
      as [[_ ->]|(lot0 & _ & _ & _ & ->)]; [exact Hcap|].
    cbn [snd]. intros lot Hlot. unfold lot_spots in *. proj_db.
    apply filter_In in Hlot. destruct Hlot as [Hlot Hne].
    rewrite filter_in_lot_removed.
    destruct (Z.eqb_spec (ParkingLot.id lot) l) as [E|E].
    + discriminate.
    + now apply Hcap.
  - destruct (book_spot_effect db u l now commit_ok)
      as [[_ ->]|(lot0 & sp & _ & _ & _ & _ & _ & ->)]; [exact Hcap|].
    cbn [snd]. intros lot Hlot. unfold lot_spots in *. proj_db.
    rewrite length_in_lot_update. now apply Hcap.
  - destruct (release_spot_effect db u now commit_ok)
      as [[_ ->]|(r & _ & _ & _ & ->)]; [exact Hcap|].
    cbn [snd]. intros lot Hlot. unfold lot_spots in *. proj_db.
    destruct (get_spot db (ParkingReservation.spot_id r));
      [rewrite length_in_lot_update|]; now apply Hcap.
Qed.

Lemma reachable_capacity db : reachable db -> capacity_matches db.
Proof.
  induction 1 as [|db rq c Hr IH]; [intros lot []|].
  apply handle_capacity; [now apply reachable_consistent|exact IH].
Qed.

Lemma status_partition (l : list ParkingSpot.t) :
  (List.length (filter (fun sp => status_eqb (ParkingSpot.status sp) A) l)
   + List.length (filter (fun sp => status_eqb (ParkingSpot.status sp) O) l)
   = List.length l)%nat.
Proof.
  induction l as [|a l IH]; simpl; [reflexivity|].
  destruct (ParkingSpot.status a); simpl; lia.
Qed.

(** X1. In every reachable state each lot has exactly
    [maximum_number_of_spots] spot rows, and its available and occupied
    counts add up to that capacity. *)
Theorem lot_counts_match_capacity (db : DB) (lot : ParkingLot.t) :
  reachable db -> In lot (lots db) ->
  Z.of_nat (List.length (lot_spots db lot))
  = ParkingLot.maximum_number_of_spots lot /\
  Z.of_nat (available_spots_count db lot)
  + Z.of_nat (occupied_spots_count db lot)
  = ParkingLot.maximum_number_of_spots lot.
Proof.
  intros Hreach Hlot. pose proof (reachable_capacity db Hreach lot Hlot) as H.
  split; [exact H|]. unfold available_spots_count, occupied_spots_count.
  pose proof (status_partition (lot_spots db lot)). lia.
Qed.

Lemma lot_counts_match_capacity_witness :
  reachable parked_db /\
  Z.of_nat (available_spots_count parked_db
              (ParkingLot.mk 1 "Mall" 10 "1 Main Street" "560001" 2))
  + Z.of_nat (occupied_spots_count parked_db
                (ParkingLot.mk 1 "Mall" 10 "1 Main Street" "560001" 2))
  = 2.
Proof.
  split; [exact parked_db_reachable|].
  exact (proj2 (lot_counts_match_capacity parked_db
                  (ParkingLot.mk 1 "Mall" 10 "1 Main Street" "560001" 2)
                  parked_db_reachable (or_introl eq_refl))).
Defined.

(** ** The open reservation of a spot *)

Lemma find_of_single {T : Type} (P : T -> bool) (l : list T) (x : T) :
  (List.length (filter P l) <= 1)%nat -> In x l -> P x = true ->
  find P l = Some x.
Proof.
  intros Hlen Hin HP. rewrite <- hd_filter_find.
  assert (Hx : In x (filter P l)) by (apply filter_In; tauto).
  destruct (filter P l) as [|a [|b t]]; simpl in *; [tauto| |lia].
  destruct Hx as [->|[]]. reflexivity.
Qed.

(** X2. In every reachable state an Occupied spot has a current
    reservation: it is open, it references the spot, and it is the active
    reservation of the user who holds it.  An Available spot has none. *)
Theorem current_reservation_of_spot (db : DB) (sp : ParkingSpot.t) :
  reachable db -> In sp (spots db) ->
  (ParkingSpot.status sp = O ->
   exists r, current_reservation db sp = Some r /\
     In r (reservations db) /\
     ParkingReservation.spot_id r = ParkingSpot.id sp /\
     ParkingReservation.leaving_timestamp r = None /\
     active_reservation db (ParkingReservation.user_id r) = Some r) /\
  (ParkingSpot.status sp = A -> current_reservation db sp = None).
Proof.
  intros Hreach Hsp. pose proof (reachable_consistent db Hreach) as Hc.
  destruct (inv_status db Hc sp Hsp) as [HO HA]. unfold current_reservation.
  split.
  - intros S. apply HO in S. unfold open_count in S.
    destruct (find (open_on_spot (ParkingSpot.id sp)) (reservations db))
      as [r|] eqn:F.
    + apply find_some in F. destruct F as [Hr Hopen].
      unfold open_on_spot in Hopen. apply andb_true_iff in Hopen.
      destruct Hopen as [E Ho]. apply Z.eqb_eq in E.
      exists r. repeat split; try assumption.
      * unfold ParkingReservation.is_open in Ho.
        now destruct (ParkingReservation.leaving_timestamp r).
      * unfold active_reservation. apply find_of_single; [|exact Hr|].
        -- apply (inv_user db Hc).
        -- unfold open_for_user. now rewrite Z.eqb_refl, Ho.
    + rewrite (find_none_filter _ _ F) in S. discriminate.
  - intros S. apply HA in S. unfold open_count in S.
    apply length_zero_iff_nil in S. now rewrite <- hd_filter_find, S.
Qed.

Lemma current_reservation_of_spot_witness :
  reachable parked_db /\
  current_reservation parked_db (ParkingSpot.mk 1 1 "MAL-001" O)
  = Some (ParkingReservation.mk 1 1 2 0 None 10 None) /\
  current_reservation parked_db (ParkingSpot.mk 2 1 "MAL-002" A) = None.
Proof.
  split; [exact parked_db_reachable|]. split; [reflexivity|].
  exact (proj2 (current_reservation_of_spot parked_db
                  (ParkingSpot.mk 2 1 "MAL-002" A) parked_db_reachable
                  (or_intror (or_introl eq_refl))) eq_refl).
Defined.

(** ** The dashboard figures *)

Lemma list_sum_map_add {T : Type} (f g : T -> nat) (l : list T) :
  list_sum (map (fun x => f x + g x)%nat l)
  = (list_sum (map f l) + list_sum (map g l))%nat.
Proof. induction l as [|a l IH]; simpl; [reflexivity|]. rewrite IH. lia. Qed.

Lemma list_sum_zero {T : Type} (f : T -> nat) (l : list T) :
  (forall x, In x l -> f x = 0%nat) -> list_sum (map f l) = 0%nat.
Proof.
  induction l as [|a l IH]; simpl; intros H; [reflexivity|].
  rewrite (H a) by now left. apply IH. intros x Hx. apply H. now right.
Qed.

Lemma list_sum_indicator (x : Z) (ks : list Z) :
  NoDup ks -> In x ks ->
  list_sum (map (fun k => if x =? k then 1%nat else 0%nat) ks) = 1%nat.
Proof.
  induction 1 as [|a ks Hnot Hnd IH]; simpl; [tauto|].
  intros [->|Hin].
  - rewrite Z.eqb_refl, list_sum_zero; [reflexivity|].
    intros k Hk. destruct (Z.eqb_spec x k); [congruence|reflexivity].
  - destruct (Z.eqb_spec x a) as [->|_]; [contradiction|]. now apply IH.
Qed.

(** Rows that pass [P] and carry a key of [ks], counted key by key. *)
Lemma count_by_key {T : Type} (key : T -> Z) (P : T -> bool) (l : list T)
    (ks : list Z) :
  NoDup ks ->
  (forall r, In r l -> P r = true -> In (key r) ks) ->
  List.length (filter P l)
  = list_sum (map (fun k => List.length
                              (filter (fun r => (key r =? k) && P r) l)) ks).
Proof.
  intros Hnd. induction l as [|a l IH]; intros Hin.
  - simpl. now rewrite list_sum_zero.
  - assert (IH' := IH (fun r Hr => Hin r (or_intror Hr))).
    cbn [filter]. destruct (P a) eqn:Pa.
    + cbn [List.length]. rewrite IH'.
      transitivity
        (list_sum (map (fun k =>
           Nat.add (if key a =? k then 1%nat else 0%nat)
             (List.length (filter (fun r => (key r =? k) && P r) l))) ks)).
      * rewrite list_sum_map_add.
        now rewrite (list_sum_indicator (key a) ks Hnd
                       (Hin a (or_introl eq_refl) Pa)).
      * f_equal. apply map_ext. intros k.
        rewrite andb_true_r. now destruct (key a =? k).
    + rewrite IH'. f_equal. apply map_ext. intros k.
      now rewrite andb_false_r.
Qed.

Lemma length_filter_sum {T : Type} (P : T -> bool) (l : list T) :
  List.length (filter P l)
  = list_sum (map (fun x => if P x then 1 else 0)%nat l).
Proof.
  induction l as [|a l IH]; simpl; [reflexivity|].
  destruct (P a); simpl; now rewrite IH.
Qed.

Lemma occupied_count_open db :
  consistent db ->
  List.length (filter (fun sp => status_eqb (ParkingSpot.status sp) O) (spots db))
  = List.length (filter ParkingReservation.is_open (reservations db)).
Proof.
  intros Hc. destruct (inv_keys db Hc) as [Hk _].
  rewrite (count_by_key ParkingReservation.spot_id ParkingReservation.is_open
             (reservations db) (map ParkingSpot.id (spots db))
             (ascending_NoDup _ Hk) (inv_refs db Hc)).
  rewrite length_filter_sum, map_map. f_equal. apply map_ext_in.
  intros sp Hsp. destruct (inv_status db Hc sp Hsp) as [HO HA].
  fold (open_on_spot (ParkingSpot.id sp)).
  fold (open_count db (ParkingSpot.id sp)).
  destruct (ParkingSpot.status sp); simpl.
  - symmetry. now apply HA.
  - symmetry. now apply HO.
Qed.

(** X3. On the admin dashboard of a reachable state, the number of
    occupied spots is the number of reservations without departure time,
    and [available_spots], computed as total minus occupied, is the number
    of spots whose status is 'A'. *)
Theorem dashboard_counts (db : DB) :
  reachable db ->
  occupied_spots db
  = Z.of_nat (List.length (filter ParkingReservation.is_open (reservations db))) /\
  available_spots db
  = Z.of_nat (List.length
      (filter (fun sp => status_eqb (ParkingSpot.status sp) A) (spots db))) /\
  0 <= available_spots db <= total_spots db.
Proof.
  intros Hreach. pose proof (reachable_consistent db Hreach) as Hc.
  unfold available_spots, total_spots, occupied_spots.
  pose proof (status_partition (spots db)) as Hp.
  rewrite (occupied_count_open db Hc) in *. repeat split; lia.
Qed.

Lemma dashboard_counts_witness :
  reachable parked_db /\ occupied_spots parked_db = 1 /\
  available_spots parked_db = 1.
Proof.
  split; [exact parked_db_reachable|].
  destruct (dashboard_counts parked_db parked_db_reachable) as (H1 & H2 & _).
  split; [exact H1|exact H2].
Defined.

(** ** Reservation rows over time *)

Lemma handle_reservations db rq commit_ok r' :
  In r' (reservations (snd (handle db rq commit_ok))) ->
  In r' (reservations db) \/
  (ParkingReservation.leaving_timestamp r' = None /\
   ParkingReservation.total_cost r' = None) \/
  exists now r, r' = ParkingReservation.close now r.
Proof.
  destruct rq as [u m f|u l m f|u l|u l now|u now]; simpl.
  - destruct (create_parking_lot_effect db u m f commit_ok)
      as [[_ ->]|(price & n & H)]; [auto|].
    cbv zeta in H. destruct H as (_ & _ & _ & _ & _ & ->). auto.
  - destruct (edit_parking_lot_effect db u l m f commit_ok)
      as [[_ ->]|(name & price & address & pin & ->)]; auto.
  - destruct (delete_parking_lot_effect db u l commit_ok)
      as [[_ ->]|(lot0 & _ & _ & _ & ->)]; auto.
  - destruct (book_spot_effect db u l now commit_ok)
      as [[_ ->]|(lot0 & sp & _ & _ & _ & _ & _ & ->)]; [auto|].
    cbn [snd reservations]. rewrite in_app_iff. intros [H|[<-|[]]]; auto.
  - destruct (release_spot_effect db u now commit_ok)
      as [[_ ->]|(r & _ & Ha & _ & ->)]; [auto|].
    cbn [snd reservations]. unfold update_reservation. intros H.
    apply in_update_by in H. destruct H as (r0 & Hr0 & ->).
    destruct (ParkingReservation.id r0 =? ParkingReservation.id r); [|auto].
    right. right. now exists now, r0.
Qed.

Lemma reachable_open_unbilled db :
  reachable db -> forall r, In r (reservations db) ->
  ParkingReservation.leaving_timestamp r = None ->
  ParkingReservation.total_cost r = None.
Proof.
  induction 1 as [|db rq c Hr IH]; [intros r []|]. intros r' H Hopen.
  destruct (handle_reservations db rq c r' H)
    as [H0|[[H1 H2]|(now & r & ->)]].
  - now apply IH.
  - exact H2.
  - discriminate.
Qed.

(** X4. In every reachable state a reservation without departure time
    carries no total cost: the cost is written only by a release, together
    with the departure time. *)
Theorem open_reservation_has_no_cost (db : DB) (r : ParkingReservation.t) :
  reachable db -> In r (reservations db) ->
  ParkingReservation.leaving_timestamp r = None ->
  ParkingReservation.total_cost r = None.
Proof. intros Hreach. now apply reachable_open_unbilled. Qed.

Lemma open_reservation_has_no_cost_witness :
  reachable parked_db /\
  ParkingReservation.total_cost (ParkingReservation.mk 1 1 2 0 None 10 None)
  = None.
Proof.
  split; [exact parked_db_reachable|].
  exact (open_reservation_has_no_cost parked_db
           (ParkingReservation.mk 1 1 2 0 None 10 None)
           parked_db_reachable (or_introl eq_refl) eq_refl).
Defined.

Lemma same_key_same_row {T : Type} (key : T -> Z) (l : list T) (x y : T) :
  NoDup (map key l) -> In x l -> In y l -> key x = key y -> x = y.
Proof.
  induction l as [|a l IH]; simpl; intros Hnd Hx Hy E; [destruct Hx|].
  inversion Hnd as [|? ? Hnot Hnd']; subst.
  destruct Hx as [->|Hx], Hy as [->|Hy]; auto.
  - exfalso. apply Hnot. rewrite E. now apply in_map.
  - exfalso. apply Hnot. rewrite <- E. now apply in_map.
Qed.

Lemma handle_keeps_rows db rq commit_ok r :
  consistent db -> In r (reservations db) ->
  exists r', In r' (reservations (snd (handle db rq commit_ok))) /\
    same_booking r r' /\
    (ParkingReservation.is_open r = false -> r' = r).
Proof.
  intros Hc Hr.
  assert (Hsame : exists r', In r' (reservations db) /\ same_booking r r' /\
             (ParkingReservation.is_open r = false -> r' = r)).
  { exists r. unfold same_booking. auto 10. }
  destruct rq as [u m f|u l m f|u l|u l now|u now]; simpl.
  - destruct (create_parking_lot_effect db u m f commit_ok)
      as [[_ ->]|(price & n & H)]; [exact Hsame|].
    cbv zeta in H. destruct H as (_ & _ & _ & _ & _ & ->). exact Hsame.
  - destruct (edit_parking_lot_effect db u l m f commit_ok)
      as [[_ ->]|(name & price & address & pin & ->)]; exact Hsame.
  - destruct (delete_parking_lot_effect db u l commit_ok)
      as [[_ ->]|(lot0 & _ & _ & _ & ->)]; exact Hsame.
  - destruct (book_spot_effect db u l now commit_ok)
      as [[_ ->]|(lot0 & sp & _ & _ & _ & _ & _ & ->)]; [exact Hsame|].
    cbn [snd reservations]. exists r. rewrite in_app_iff.
    unfold same_booking. auto 10.
  - destruct (release_spot_effect db u now commit_ok)
      as [[_ ->]|(r1 & _ & Ha & _ & ->)]; [exact Hsame|].
    cbn [snd reservations]. unfold update_reservation.
    destruct (active_reservation_some _ _ _ Ha) as (Hr1 & _ & Ho1).
    exists (if ParkingReservation.id r =? ParkingReservation.id r1
            then ParkingReservation.close now r else r).
    split; [apply in_update_by; now exists r|].
    destruct (Z.eqb_spec (ParkingReservation.id r) (ParkingReservation.id r1))
      as [E|E]; [|unfold same_booking; auto 10].
    split; [unfold same_booking; simpl; auto 10|].
    intros Hclosed. exfalso.
    destruct (inv_keys db Hc) as [_ Hk].
    rewrite (same_key_same_row ParkingReservation.id _ r r1
               (ascending_NoDup _ Hk) Hr Hr1 E) in Hclosed.
    congruence.
Qed.

Lemma run_all_consistent db steps :
  consistent db -> consistent (run_all db steps).
Proof.
  revert db. induction steps as [|s steps IH]; intros db H; simpl; [exact H|].
  apply IH. now apply handle_consistent.
Qed.

(** X5. Whatever requests follow a reachable state, with whatever commit
    outcomes, every reservation row stays in the table with its key, spot,
    user, arrival time and captured rate, and a row that already has a
    departure time stays exactly as it is. *)
Theorem reservation_history_kept (db : DB) (steps : list (Request * bool))
    (r : ParkingReservation.t) :
  reachable db -> In r (reservations db) ->
  exists r', In r' (reservations (run_all db steps)) /\
    same_booking r r' /\
    (ParkingReservation.leaving_timestamp r <> None -> r' = r).
Proof.
  intros Hreach. pose proof (reachable_consistent db Hreach) as Hc.
  clear Hreach. revert db r Hc.
  induction steps as [|[rq c] steps IH]; intros db r Hc Hr.
  - exists r. unfold same_booking. auto 10.
  - cbn [run_all fold_left fst snd].
    destruct (handle_keeps_rows db rq c r Hc Hr) as (r1 & Hr1 & Hs1 & Hc1).
    destruct (IH _ r1 (handle_consistent db rq c Hc) Hr1)
      as (r2 & Hr2 & Hs2 & Hc2).
    exists r2. split; [exact Hr2|]. split.
    + unfold same_booking in *. intuition congruence.
    + intros Hclosed.
      assert (E : r1 = r).
      { apply Hc1. unfold ParkingReservation.is_open.
        destruct (ParkingReservation.leaving_timestamp r); congruence. }
      subst r1. now apply Hc2.
Qed.

Lemma reservation_history_kept_witness :
  reachable parked_db /\
  exists r', In r' (reservations
                     (run_all parked_db
                        [(EditLot an_admin 1 POST
                            (Form.mk (Some "Plaza"%string) (number 99%Q)
                               (Some "x"%string) (Some "y"%string) missing),
                          true);
                         (Release a_driver 3600000000, true)])) /\
    ParkingReservation.parking_cost_per_unit_time r' = 10%Q.
Proof.
  split; [exact parked_db_reachable|].
  destruct (reservation_history_kept parked_db
              [(EditLot an_admin 1 POST
                  (Form.mk (Some "Plaza"%string) (number 99%Q)
                     (Some "x"%string) (Some "y"%string) missing), true);
               (Release a_driver 3600000000, true)]
              (ParkingReservation.mk 1 1 2 0 None 10 None)
              parked_db_reachable (or_introl eq_refl))
    as (r' & H1 & H2 & _).
  exists r'. split; [exact H1|]. apply H2.
Defined.

(** X6. In a reachable state a successful release always names a spot of
    the table (the 'your spot' fallback is never used): the spot the
    user's open reservation references, which was Occupied and is
    Available afterwards. *)
Theorem release_names_the_spot (db : DB) (u : User.t) (now : Z)
    (commit_ok : bool) (name : option string) (cost : option Q) (db' : DB) :
  reachable db ->
  release_spot db u now commit_ok = (Released name cost, db') ->
  exists sp r,
    name = Some (ParkingSpot.spot_number sp) /\
    In sp (spots db) /\ ParkingSpot.status sp = O /\
    active_reservation db (User.id u) = Some r /\
    ParkingReservation.spot_id r = ParkingSpot.id sp /\
    get_spot db' (ParkingSpot.id sp) = Some (ParkingSpot.with_status A sp).
Proof.
  intros Hreach H. pose proof (reachable_consistent db Hreach) as Hc.
  destruct (release_spot_effect db u now commit_ok)
    as [[F _]|(r & _ & Ha & _ & E)]; [rewrite H in F; discriminate|].
  rewrite H in E. injection E as -> _ ->.
  destruct (active_reservation_some _ _ _ Ha) as (Hr & _ & Ho).
  destruct (get_spot db (ParkingReservation.spot_id r)) as [sp|] eqn:Hg;
    [|exfalso; apply (get_spot_none _ _ Hg); now apply (inv_refs db Hc)].
  destruct (get_spot_some _ _ _ Hg) as [Hin Hid].
  exists sp, r. split; [reflexivity|]. split; [exact Hin|].
  split; [apply (referenced_spot_occupied db sp r (inv_status db Hc)
                   Hin Hr Ho (eq_sym Hid))|].
  split; [exact Ha|]. split; [now symmetry|].
  unfold get_spot, update_spot. cbn [spots].
  rewrite find_update_by_same by reflexivity.
  fold (get_spot db (ParkingSpot.id sp)). now rewrite Hid, Hg.
Qed.

Lemma release_names_the_spot_witness :
  reachable parked_db /\
  fst (release_spot parked_db a_driver 60000000 true)
  = Released (Some "MAL-001"%string) (Some (17 # 100)).
Proof.
  split; [exact parked_db_reachable|].
  destruct (release_names_the_spot parked_db a_driver 60000000 true
              (Some "MAL-001"%string) (Some (17 # 100))
              (snd (release_spot parked_db a_driver 60000000 true))
              parked_db_reachable eq_refl) as (sp & r & _).
  reflexivity.
Defined.

(** ** Completed reservations *)

Lemma handle_not_release_completed db rq commit_ok :
  is_release rq = false ->
  completed_reservations (snd (handle db rq commit_ok))
  = completed_reservations db.
Proof.
  intros Hrq. unfold completed_reservations.
  destruct rq as [u m f|u l m f|u l|u l now|u now]; simpl;
    [| | | |discriminate].
  - destruct (create_parking_lot_effect db u m f commit_ok)
      as [[_ ->]|(price & n & H)]; [reflexivity|].
    cbv zeta in H. destruct H as (_ & _ & _ & _ & _ & ->). reflexivity.
  - destruct (edit_parking_lot_effect db u l m f commit_ok)
      as [[_ ->]|(name & price & address & pin & ->)]; reflexivity.
  - destruct (delete_parking_lot_effect db u l commit_ok)
      as [[_ ->]|(lot0 & _ & _ & _ & ->)]; reflexivity.
  - destruct (book_spot_effect db u l now commit_ok)
      as [[_ ->]|(lot0 & sp & _ & _ & _ & _ & _ & ->)]; [reflexivity|].
    cbn [snd reservations]. rewrite filter_app. simpl. apply app_nil_r.
Qed.

(** X8. The completed reservations, from which the dashboard computes the
    earnings, change only at a release: a request of any other kind leaves
    the list as it was, and a successful release in a reachable state adds
    exactly one row, the releasing user's reservation with the release
    time as departure time. *)
Theorem completed_change_only_at_release (db : DB) :
  reachable db ->
  (forall rq commit_ok,
     is_release rq = false ->
     completed_reservations (snd (handle db rq commit_ok))
     = completed_reservations db) /\
  (forall u now commit_ok name cost db',
     release_spot db u now commit_ok = (Released name cost, db') ->
     exists r r',
       active_reservation db (User.id u) = Some r /\
       same_booking r r' /\
       ParkingReservation.leaving_timestamp r' = Some now /\
       (forall x, In x (completed_reservations db') <->
                  x = r' \/ In x (completed_reservations db)) /\
       List.length (completed_reservations db')
       = S (List.length (completed_reservations db))).
Proof.
  intros Hreach. pose proof (reachable_consistent db Hreach) as Hc. split.
  - intros rq c Hrq. now apply handle_not_release_completed.
  - intros u now c name cost db' H.
    destruct (release_spot_effect db u now c)
      as [[F _]|(r & _ & Ha & _ & E)]; [rewrite H in F; discriminate|].
    rewrite H in E. injection E as _ _ ->.
    destruct (active_reservation_some _ _ _ Ha) as (Hr & _ & Ho).
    destruct (inv_keys db Hc) as [_ Hk].
    exists r, (ParkingReservation.close now r).
    split; [exact Ha|]. split; [unfold same_booking; simpl; auto 10|].
    split; [reflexivity|].
    unfold completed_reservations, update_reservation. cbn [reservations].
    apply in_split in Hr. destruct Hr as (l1 & l2 & Hsplit).
    rewrite Hsplit in *.
    rewrite update_by_split by now apply ascending_NoDup.
    rewrite !filter_app. cbn [filter]. rewrite Ho, close_not_open.
    cbn [negb]. split.
    + intros x. rewrite !in_app_iff. cbn [In]. intuition congruence.
    + rewrite !length_app. cbn [List.length]. lia.
Qed.

Lemma completed_change_only_at_release_witness :
  reachable parked_db /\
  completed_reservations parked_db = [] /\
  List.length (completed_reservations
                 (snd (release_spot parked_db a_driver 9000000000 true)))
  = 1%nat.
Proof.
  split; [exact parked_db_reachable|]. split; [reflexivity|].
  destruct (proj2 (completed_change_only_at_release parked_db parked_db_reachable)
              a_driver 9000000000 true (Some "MAL-001"%string) (Some 25%Q) _
              eq_refl) as (r & r' & _ & _ & _ & _ & Hlen).
  exact Hlen.
Defined.

(** ** Counts of a lot across a booking and a release *)

Lemma lot_count_spots_by db lot st :
  List.length (filter (fun spot => status_eqb (ParkingSpot.status spot) st)
                      (lot_spots db lot))
  = List.length (spots_by db (ParkingLot.id lot) st).
Proof. unfold lot_spots. now rewrite spots_by_nested. Qed.

Lemma count_status_update (l : list ParkingSpot.t) (sp : ParkingSpot.t)
    (st st' : Status) (lot_id : Z) :
  NoDup (map ParkingSpot.id l) -> In sp l ->
  (List.length (filter (in_lot_with lot_id st')
                  (update_spot (ParkingSpot.id sp)
                               (ParkingSpot.with_status st) l))
   + (if in_lot_with lot_id st' sp then 1 else 0)
   = List.length (filter (in_lot_with lot_id st') l)
     + (if in_lot_with lot_id st' (ParkingSpot.with_status st sp)
        then 1 else 0))%nat.
Proof. intros Hnd Hin. now apply count_update_by. Qed.

(** X10. A user without open reservation books on an existing lot of a
    reachable state: the booking is refused for lack of spots exactly when
    the lot's available count is 0; otherwise it takes one spot of that
    lot from the available count to the occupied count and leaves the
    counts of every other lot as they were. *)
Theorem book_moves_one_spot (db : DB) (u : User.t) (lot_id now : Z)
    (lot : ParkingLot.t) :
  reachable db ->
  User.role u = user ->
  active_reservation db (User.id u) = None ->
  get_lot db lot_id = Some lot ->
  (available_spots_count db lot = 0%nat ->
   forall commit_ok,
     book_spot db u lot_id now commit_ok = (NoSpotsAvailable, db)) /\
  (available_spots_count db lot <> 0%nat ->
   exists sn db',
     book_spot db u lot_id now true
     = (Booked sn (ParkingLot.prime_location_name lot), db') /\
     (available_spots_count db' lot + 1 = available_spots_count db lot)%nat /\
     (occupied_spots_count db' lot = occupied_spots_count db lot + 1)%nat /\
     forall other, ParkingLot.id other <> lot_id ->
       available_spots_count db' other = available_spots_count db other /\
       occupied_spots_count db' other = occupied_spots_count db other).
Proof.
  intros Hreach Hrole Hnone Hlot.
  pose proof (reachable_consistent db Hreach) as Hc.
  destruct (get_lot_some _ _ _ Hlot) as [_ Hid].
  unfold available_spots_count, occupied_spots_count.
  rewrite !lot_count_spots_by, Hid. split.
  - intros H0 c. apply length_zero_iff_nil in H0.
    unfold book_spot. rewrite Hrole. cbn [role_eqb negb].
    now rewrite Hnone, Hlot, H0.
  - intros Hne. destruct (spots_by db lot_id A) as [|sp rest] eqn:Hs;
      [now destruct Hne|].
    assert (Hhd : hd_error (spots_by db lot_id A) = Some sp) by now rewrite Hs.
    destruct (first_available _ _ _ Hhd) as (Hin & Hl & HA).
    destruct (inv_keys db Hc) as [Hk _].
    pose proof (ascending_NoDup _ Hk) as Hnd.
    eexists _, _. split.
    { unfold book_spot. rewrite Hrole. cbn [role_eqb negb].
      rewrite Hnone, Hlot, Hs. cbn [hd_error]. reflexivity. }
    assert (Hcount : forall l st',
      (List.length (spots_by
          (mkDB (lots db)
             (update_spot (ParkingSpot.id sp) (ParkingSpot.with_status O)
                          (spots db))
             (reservations db ++
                [ParkingReservation.mk
                   (next_id (map ParkingReservation.id (reservations db)))
                   (ParkingSpot.id sp) (User.id u) now None
                   (ParkingLot.price lot) None])) l st')
       + (if in_lot_with l st' sp then 1 else 0)
       = List.length (spots_by db l st')
         + (if in_lot_with l st' (ParkingSpot.with_status O sp)
            then 1 else 0))%nat).
    { intros l st'. unfold spots_by. cbn [spots].
      now apply count_status_update. }
    rewrite <- Hs.
    split; [|split].
    + pose proof (Hcount lot_id A) as H. unfold in_lot_with in H.
      cbn [ParkingSpot.with_status ParkingSpot.lot_id ParkingSpot.status] in H.
      rewrite Hl, HA, Z.eqb_refl in H. simpl in H.
      rewrite !lot_count_spots_by, Hid. lia.
    + pose proof (Hcount lot_id O) as H. unfold in_lot_with in H.
      cbn [ParkingSpot.with_status ParkingSpot.lot_id ParkingSpot.status] in H.
      rewrite Hl, HA, Z.eqb_refl in H. simpl in H.
      rewrite !lot_count_spots_by, Hid. lia.
    + intros other Hother. rewrite !lot_count_spots_by.
      pose proof (Hcount (ParkingLot.id other) A) as H1.
      pose proof (Hcount (ParkingLot.id other) O) as H2.
      unfold in_lot_with in H1, H2.
      cbn [ParkingSpot.with_status ParkingSpot.lot_id ParkingSpot.status]
        in H1, H2.
      rewrite Hl in H1, H2.
      destruct (Z.eqb_spec lot_id (ParkingLot.id other)); [congruence|].
      simpl in H1, H2. lia.
Qed.

Lemma book_moves_one_spot_witness :
  reachable mall_db /\
  available_spots_count mall_db
    (ParkingLot.mk 1 "Mall" 10 "1 Main Street" "560001" 2) = 2%nat /\
  available_spots_count parked_db
    (ParkingLot.mk 1 "Mall" 10 "1 Main Street" "560001" 2) = 1%nat.
Proof.
  split; [exact mall_db_reachable|]. split; [reflexivity|].
  destruct (proj2 (book_moves_one_spot mall_db a_driver 1 0
                     (ParkingLot.mk 1 "Mall" 10 "1 Main Street" "560001" 2)
                     mall_db_reachable eq_refl eq_refl eq_refl)
              ltac:(discriminate)) as (sn & db' & _).
  reflexivity.
Defined.

(** X11. A successful release in a reachable state gives one spot back:
    the lot of the released spot gains one available spot and loses one
    occupied spot, and the counts of every other lot are unchanged. *)
Theorem release_returns_one_spot (db : DB) (u : User.t) (now : Z)
    (commit_ok : bool) (name : option string) (cost : option Q) (db' : DB) :
  reachable db ->
  release_spot db u now commit_ok = (Released name cost, db') ->
  exists sp, In sp (spots db) /\ ParkingSpot.status sp = O /\
    name = Some (ParkingSpot.spot_number sp) /\
    forall lot,
      (ParkingLot.id lot = ParkingSpot.lot_id sp ->
       (available_spots_count db' lot = available_spots_count db lot + 1)%nat /\
       (occupied_spots_count db' lot + 1 = occupied_spots_count db lot)%nat) /\
      (ParkingLot.id lot <> ParkingSpot.lot_id sp ->
       available_spots_count db' lot = available_spots_count db lot /\
       occupied_spots_count db' lot = occupied_spots_count db lot).
Proof.
  intros Hreach H. pose proof (reachable_consistent db Hreach) as Hc.
  destruct (release_spot_effect db u now commit_ok)
    as [[F _]|(r & _ & Ha & _ & E)]; [rewrite H in F; discriminate|].
  rewrite H in E. injection E as -> _ ->.
  destruct (active_reservation_some _ _ _ Ha) as (Hr & _ & Ho).
  destruct (get_spot db (ParkingReservation.spot_id r)) as [sp|] eqn:Hg;
    [|exfalso; apply (get_spot_none _ _ Hg); now apply (inv_refs db Hc)].
  destruct (get_spot_some _ _ _ Hg) as [Hin Hid].
  destruct (referenced_spot_occupied db sp r (inv_status db Hc)
              Hin Hr Ho (eq_sym Hid)) as [HO _].
  destruct (inv_keys db Hc) as [Hk _].
  pose proof (ascending_NoDup _ Hk) as Hnd.
  exists sp. split; [exact Hin|]. split; [exact HO|]. split; [reflexivity|].
  intros lot. unfold available_spots_count, occupied_spots_count.
  rewrite !lot_count_spots_by. unfold spots_by. cbn [spots].
  pose proof (count_status_update (spots db) sp A A (ParkingLot.id lot)
                Hnd Hin) as H1.
  pose proof (count_status_update (spots db) sp A O (ParkingLot.id lot)
                Hnd Hin) as H2.
  unfold in_lot_with in *.
  cbn [ParkingSpot.with_status ParkingSpot.lot_id ParkingSpot.status]
    in H1, H2.
  rewrite HO in H1, H2.
  split; intros Hlot.
  - rewrite <- Hlot, Z.eqb_refl in H1, H2. simpl in H1, H2. lia.
  - destruct (Z.eqb_spec (ParkingSpot.lot_id sp) (ParkingLot.id lot));
      [congruence|]. simpl in H1, H2. lia.
Qed.

Lemma release_returns_one_spot_witness :
  reachable parked_db /\
  available_spots_count (snd (release_spot parked_db a_driver 5 true))
    (ParkingLot.mk 1 "Mall" 10 "1 Main Street" "560001" 2) = 2%nat.
Proof.
  split; [exact parked_db_reachable|].
  destruct (release_returns_one_spot parked_db a_driver 5 true
              (Some "MAL-001"%string) (Some 0%Q)
              (snd (release_spot parked_db a_driver 5 true))
              parked_db_reachable eq_refl) as (sp & _).
  reflexivity.
Defined.

(** ** Who can change what *)



(** ** Trimmed fields *)

Lemma rstrip_cons c t :
  rstrip (String c t)
  = match rstrip t with
    | EmptyString => if is_space c then EmptyString else String c EmptyString
    | t' => String c t'
    end.
Proof. reflexivity. Qed.

Lemma rstrip_idempotent s : rstrip (rstrip s) = rstrip s.
Proof.
  induction s as [|c t IH]; [reflexivity|]. rewrite rstrip_cons.
  destruct (rstrip t) as [|c' t'] eqn:E.
  - destruct (is_space c) eqn:Hc; [reflexivity|].
    rewrite rstrip_cons. cbn [rstrip]. now rewrite Hc.
  - rewrite rstrip_cons, IH. reflexivity.
Qed.

Lemma rstrip_keeps_head c t :
  is_space c = false -> exists t', rstrip (String c t) = String c t'.
Proof.
  intros Hc. rewrite rstrip_cons. destruct (rstrip t) as [|c' t'].
  - rewrite Hc. now exists EmptyString.
  - now exists (String c' t').
Qed.

Lemma lstrip_head s :
  lstrip s = EmptyString \/
  exists c t, lstrip s = String c t /\ is_space c = false.
Proof.
  induction s as [|c t IH]; [now left|]. cbn [lstrip].
  destruct (is_space c) eqn:Hc; [exact IH|]. right. now exists c, t.
Qed.

Lemma strip_trimmed s : trimmed (strip s).
Proof.
  unfold trimmed, strip. split; [|apply rstrip_idempotent].
  destruct (lstrip_head s) as [->|(c & t & -> & Hc)]; [reflexivity|].
  destruct (rstrip_keeps_head c t Hc) as (t' & ->).
  cbn [lstrip]. now rewrite Hc.
Qed.

Lemma handle_fields_trimmed db rq commit_ok :
  (forall lot, In lot (lots db) -> fields_trimmed lot) ->
  forall lot, In lot (lots (snd (handle db rq commit_ok))) -> fields_trimmed lot.
Proof.
  intros Hall lot.
  destruct rq as [u m f|u l m f|u l|u l now|u now]; cbn [handle].
  - destruct (create_parking_lot_effect db u m f commit_ok)
      as [[_ ->]|(price & n & H)]; [apply Hall|].
    cbv zeta in H. destruct H as (_ & _ & _ & _ & _ & ->).
    cbn [snd lots]. rewrite in_app_iff. intros [H|[<-|[]]]; [now apply Hall|].
    repeat split; apply strip_trimmed.
  - unfold edit_parking_lot.
    destruct (negb _); [apply Hall|].
    destruct (get_lot db l) as [lot0|]; [|apply Hall].
    destruct m; [apply Hall|].
    destruct (match Form.price f with
              | missing => Some 0%Q | number v => Some v
              | _ => None end) as [price|]; [|apply Hall].
    destruct commit_ok; [|apply Hall].
    cbn [snd lots]. unfold update_lot. intros H.
    apply in_update_by in H. destruct H as (x & Hx & ->).
    destruct (ParkingLot.id x =? ParkingLot.id lot0); [|now apply Hall].
    repeat split; apply strip_trimmed.
  - destruct (delete_parking_lot_effect db u l commit_ok)
      as [[_ ->]|(lot0 & _ & _ & _ & ->)]; [apply Hall|].
    cbn [snd lots]. intros H. apply filter_In in H. now apply Hall.
  - destruct (book_spot_effect db u l now commit_ok)
      as [[_ ->]|(lot0 & sp & _ & _ & _ & _ & _ & ->)]; apply Hall.
  - destruct (release_spot_effect db u now commit_ok)
      as [[_ ->]|(r & _ & _ & _ & ->)]; apply Hall.
Qed.

(** X13. In every reachable state the name, address and postal code of
    every lot are trimmed: stripping white space from either end of the
    stored text changes nothing. *)
Theorem lot_fields_are_trimmed (db : DB) (lot : ParkingLot.t) :
  reachable db -> In lot (lots db) ->
  strip (ParkingLot.prime_location_name lot) = ParkingLot.prime_location_name lot /\
  strip (ParkingLot.address lot) = ParkingLot.address lot /\
  strip (ParkingLot.pin_code lot) = ParkingLot.pin_code lot /\
  fields_trimmed lot.
Proof.
  intros Hreach Hlot.
  assert (H : fields_trimmed lot).
  { revert lot Hlot. induction Hreach as [|db rq c _ IH]; [intros lot []|].
    now apply handle_fields_trimmed. }
  destruct H as ((N1 & N2) & (A1 & A2) & (P1 & P2)).
  unfold strip. rewrite N1, N2, A1, A2, P1, P2.
  repeat split; assumption.
Qed.

Lemma lot_fields_are_trimmed_witness :
  reachable (run empty_db
     [CreateLot an_admin POST
        (Form.mk (Some "  City Hall	"%string) (number 5%Q)
                 (Some " 2 Square "%string) (Some "75001 "%string) (number 1))]) /\
  strip "City Hall" = "City Hall"%string.
Proof.
  assert (Hr : reachable (run empty_db
     [CreateLot an_admin POST
        (Form.mk (Some "  City Hall	"%string) (number 5%Q)
                 (Some " 2 Square "%string) (Some "75001 "%string) (number 1))]))
    by (apply run_reachable; constructor).
  split; [exact Hr|].
  exact (proj1 (lot_fields_are_trimmed _
                  (ParkingLot.mk 1 "City Hall" 5 "2 Square" "75001" 1)
                  Hr (or_introl eq_refl))).
Defined.

(** ** Labels within a lot *)

Lemma NoDup_map_Some {T : Type} (l : list T) :
  NoDup l -> NoDup (map Some l).
Proof.
  induction 1 as [|a l Hnot Hnd IH]; simpl; constructor; [|exact IH].
  rewrite in_map_iff. intros (x & [= ->] & Hx). contradiction.
Qed.

(** X14. In every reachable state the spots of a lot carry pairwise
    distinct labels, and their ordinals, read in table order, are
    1, 2, ..., up to the number of spots of the lot. *)
Theorem labels_distinct_in_lot (db : DB) (lot : ParkingLot.t) :
  reachable db -> In lot (lots db) ->
  NoDup (map ParkingSpot.spot_number (lot_spots db lot)) /\
  map spot_ordinal (lot_spots db lot)
  = map Some (range 1 (ParkingLot.maximum_number_of_spots lot + 1)).
Proof.
  intros Hreach Hlot. pose proof (reachable_consistent db Hreach) as Hc.
  pose proof (reachable_capacity db Hreach lot Hlot) as Hcap.
  unfold lot_spots in *.
  destruct (lot_ordinals db (ParkingLot.id lot) (inv_labels db Hc))
    as (n & Hord).
  assert (Hn : range 1 (n + 1)
               = range 1 (ParkingLot.maximum_number_of_spots lot + 1)).
  { apply (f_equal (@List.length _)) in Hord.
    rewrite !length_map, range_length in Hord.
    unfold range. f_equal. f_equal. lia. }
  rewrite Hn in Hord. split; [|exact Hord].
  apply (NoDup_map_inv ordinal_of_label).
  unfold spot_ordinal in Hord. rewrite <- map_map in Hord. rewrite Hord.
  apply NoDup_map_Some, ascending_NoDup, range_ascending.
Qed.

Lemma labels_distinct_in_lot_witness :
  reachable mall_db /\
  map spot_ordinal
      (lot_spots mall_db (ParkingLot.mk 1 "Mall" 10 "1 Main Street" "560001" 2))
  = [Some 1; Some 2].
Proof.
  split; [exact mall_db_reachable|].
  exact (proj2 (labels_distinct_in_lot mall_db
                  (ParkingLot.mk 1 "Mall" 10 "1 Main Street" "560001" 2)
                  mall_db_reachable (or_introl eq_refl))).
Defined.

(** ** Accounts *)

Lemma user_by_name_none users name :
  user_by_name users name = None -> ~ In name (map Account.username users).
Proof.
  unfold user_by_name. intros H Hin. apply in_map_iff in Hin.
  destruct Hin as (a & E & Ha). pose proof (find_none _ _ H a Ha) as F.
  simpl in F. rewrite E, String.eqb_refl in F. discriminate.
Qed.

Lemma NoDup_snoc {T : Type} (l : list T) (x : T) :
  NoDup l -> ~ In x l -> NoDup (l ++ [x]).
Proof.
  intros Hnd Hx. apply NoDup_app; [exact Hnd|repeat constructor; auto|].
  intros y Hy [<-|[]]. contradiction.
Qed.

(** X15. Registration keeps user names pairwise distinct and never adds
    or alters an administrator.  When it answers AccountCreated it has
    appended exactly one account of role 'user' whose name is the trimmed,
    non-empty form value and whose password had at least 6 characters; any
    other answer leaves the table as it was. *)
Theorem register_keeps_names_unique (users : list Account.t) (method : Method)
    (username_field password_field : option string) (hashed_password : string)
    (commit_ok : bool) :
  let result := register users method username_field password_field
                         hashed_password commit_ok in
  (NoDup (map Account.username users) ->
   NoDup (map Account.username (snd result))) /\
  filter is_admin (snd result) = filter is_admin users /\
  (fst result = AccountCreated ->
   exists a, snd result = users ++ [a] /\
     Account.role a = user /\
     Account.username a = strip (get_text username_field) /\
     Account.username a <> EmptyString /\
     Account.password a = hashed_password /\
     (6 <= String.length (get_text password_field))%nat /\
     forall b, In b users -> Account.id b < Account.id a) /\
  (fst result <> AccountCreated -> snd result = users).
Proof.
  cbv zeta. unfold register. destruct method; [cbn; intuition congruence|].
  destruct (truthy (strip (get_text username_field))) eqn:Hu;
    [|cbn; intuition congruence].
  destruct (truthy (get_text password_field)) eqn:Hp;
    [|cbn; intuition congruence].
  cbn [negb orb].
  destruct (Nat.ltb_spec (String.length (get_text password_field)) 6);
    [cbn; intuition congruence|].
  destruct (user_by_name users (strip (get_text username_field))) eqn:Hn;
    [cbn; intuition congruence|].
  destruct commit_ok; [|cbn; intuition congruence].
  cbn [fst snd]. split; [|split; [|split]].
  - intros Hnd. rewrite map_app. apply NoDup_snoc; [exact Hnd|].
    now apply user_by_name_none.
  - rewrite filter_app. cbn. apply app_nil_r.
  - intros _. eexists. split; [reflexivity|]. cbn.
    repeat split; try assumption.
    + intros E. rewrite E in Hu. discriminate.
    + intros b Hb. apply next_id_above. now apply in_map.
  - congruence.
Qed.

Lemma register_keeps_names_unique_witness :
  register [Account.mk 1 "admin" "h0" admin] POST (Some " admin "%string)
           (Some "secret1"%string) "h1" true
  = (UsernameTaken, [Account.mk 1 "admin" "h0" admin]) /\
  NoDup (map Account.username
           (snd (register [Account.mk 1 "admin" "h0" admin] POST
                   (Some " bob "%string) (Some "secret1"%string) "h1" true))).
Proof.
  split; [reflexivity|].
  apply (proj1 (register_keeps_names_unique [Account.mk 1 "admin" "h0" admin]
                  POST (Some " bob "%string) (Some "secret1"%string) "h1" true)).
  repeat constructor. intros [].
Defined.

(** X16. The start-up creation of the default administrator: when it
    completes, the table holds an administrator and running it again
    changes nothing, whatever the hash and the commit outcome of the
    second run; a table that already holds an administrator is returned
    as it is; distinct user names stay distinct. *)
Theorem default_admin_once (users users' : list Account.t)
    (admin_password : string) (commit_ok : bool) :
  create_default_admin users admin_password commit_ok = Some users' ->
  (exists a, In a users' /\ Account.role a = admin) /\
  (forall admin_password' commit_ok',
     create_default_admin users' admin_password' commit_ok' = Some users') /\
  ((exists a, In a users /\ Account.role a = admin) -> users' = users) /\
  (NoDup (map Account.username users) -> NoDup (map Account.username users')).
Proof.
  unfold create_default_admin. intros H.
  assert (Hhas : forall l, (exists a, In a l /\ Account.role a = admin) ->
                   exists a, find is_admin l = Some a).
  { intros l (a & Ha & Hr). destruct (find is_admin l) eqn:F; [eauto|].
    pose proof (find_none _ _ F a Ha) as N. unfold is_admin in N.
    rewrite Hr in N. discriminate. }
  assert (Hadmin : exists a, In a users' /\ Account.role a = admin).
  { destruct (find is_admin users) as [a|] eqn:F.
    - injection H as <-. apply find_some in F. destruct F as [F1 F2].
      exists a. split; [exact F1|]. now apply role_eqb_eq.
    - destruct (user_by_name users "admin"); [discriminate|].
      destruct commit_ok; [|discriminate]. injection H as <-.
      eexists. split; [apply in_app_iff; right; now left|reflexivity]. }
  split; [exact Hadmin|]. split; [|split].
  - intros h' c'. destruct (Hhas users' Hadmin) as (a & ->). reflexivity.
  - intros Hex. destruct (Hhas users Hex) as (a & E). rewrite E in H.
    now injection H.
  - intros Hnd. destruct (find is_admin users); [now injection H as <-|].
    destruct (user_by_name users "admin") eqn:Hn; [discriminate|].
    destruct commit_ok; [|discriminate]. injection H as <-.
    rewrite map_app. apply NoDup_snoc; [exact Hnd|].
    now apply user_by_name_none.
Qed.

Lemma default_admin_once_witness :
  create_default_admin [] "h0" true = Some [Account.mk 1 "admin" "h0" admin] /\
  create_default_admin [Account.mk 1 "admin" "h0" admin] "h9" false
  = Some [Account.mk 1 "admin" "h0" admin].
Proof.
  split; [reflexivity|].
  exact (proj1 (proj2 (default_admin_once [] [Account.mk 1 "admin" "h0" admin]
                         "h0" true eq_refl)) "h9"%string false).
Defined.

(** ** References between tables *)

(** X17. In every reachable state every spot belongs to a lot of the
    table, and every reservation without departure time references a
    spot of the table, so that its lot name resolves. *)
Theorem references_resolve (db : DB) :
  reachable db ->
  (forall sp, In sp (spots db) ->
     exists lot, get_lot db (ParkingSpot.lot_id sp) = Some lot) /\
  (forall r, In r (reservations db) ->
     ParkingReservation.leaving_timestamp r = None ->
     exists sp name,
       get_spot db (ParkingReservation.spot_id r) = Some sp /\
       ParkingSpot.status sp = O /\
       lot_name_of db r = Some name).
Proof.
  intros Hreach. pose proof (reachable_consistent db Hreach) as Hc.
  assert (Hlots : forall sp, In sp (spots db) ->
            exists lot, get_lot db (ParkingSpot.lot_id sp) = Some lot).
  { intros sp Hsp. pose proof (inv_lots db Hc sp Hsp) as Hin.
    unfold get_lot. destruct (find _ (lots db)) as [lot|] eqn:F; [eauto|].
    exfalso. apply in_map_iff in Hin. destruct Hin as (l & E & Hl).
    pose proof (find_none _ _ F l Hl) as N. simpl in N. lia. }
  split; [exact Hlots|].
  intros r Hr Hopen.
  assert (Ho : ParkingReservation.is_open r = true)
    by (unfold ParkingReservation.is_open; now rewrite Hopen).
  destruct (get_spot db (ParkingReservation.spot_id r)) as [sp|] eqn:Hg;
    [|exfalso; apply (get_spot_none _ _ Hg); now apply (inv_refs db Hc)].
  destruct (get_spot_some _ _ _ Hg) as [Hin Hid].
  destruct (Hlots sp Hin) as (lot & Hlot).
  exists sp, (ParkingLot.prime_location_name lot).
  split; [reflexivity|].
  split; [apply (referenced_spot_occupied db sp r (inv_status db Hc)
                   Hin Hr Ho (eq_sym Hid))|].
  unfold lot_name_of. now rewrite Hg, Hlot.
Qed.

Lemma references_resolve_witness :
  reachable parked_db /\
  exists sp name,
    get_spot parked_db 1 = Some sp /\ ParkingSpot.status sp = O /\
    lot_name_of parked_db (ParkingReservation.mk 1 1 2 0 None 10 None)
    = Some name.
Proof.
  split; [exact parked_db_reachable|].
  exact (proj2 (references_resolve parked_db parked_db_reachable)
           (ParkingReservation.mk 1 1 2 0 None 10 None)
           (or_introl eq_refl) eq_refl).
Defined.

(** ** Handlers in sequence *)

Lemma range_head a b : a < b -> range a b = a :: range (a + 1) b.
Proof.
  intros H. unfold range.
  replace (Z.to_nat (b - a)) with (S (Z.to_nat (b - (a + 1)))) by lia.
  cbn [seq map]. f_equal; [lia|].
  rewrite <- seq_shift, map_map. apply map_ext. intros i. lia.
Qed.

(** X18. Right after a lot is created in a reachable state, the first
    booking on it by a user without open reservation takes the spot of
    ordinal 1, whose label is the first three characters of the lot name
    in upper case followed by "-001". *)
Theorem first_booking_takes_spot_one (db : DB) (adm u : User.t)
    (form : Form.t) (name : string) (n : Z) (db1 : DB) (now : Z) :
  reachable db ->
  create_parking_lot db adm POST form true = (LotCreated name n, db1) ->
  User.role u = user ->
  active_reservation db (User.id u) = None ->
  fst (book_spot db1 u (next_id (map ParkingLot.id (lots db))) now true)
  = Booked (upper (first3 name) ++ "-001") name.
Proof.
  intros Hreach Hcreate Hrole Hnone.
  pose proof (reachable_consistent db Hreach) as Hc.
  destruct (create_parking_lot_effect db adm POST form true)
    as [[F _]|(price & k & H)]; [rewrite Hcreate in F; discriminate|].
  cbv zeta in H. destruct H as (_ & _ & Hk & _ & _ & E).
  rewrite Hcreate in E. injection E as -> -> ->.
  set (lid := next_id (map ParkingLot.id (lots db))).
  set (nm := strip (get_text (Form.prime_location_name form))).
  unfold book_spot. rewrite Hrole. cbn [role_eqb negb].
  unfold active_reservation in *. cbn [reservations]. rewrite Hnone.
  assert (Hlot : get_lot (mkDB (lots db ++
                    [ParkingLot.mk lid nm price
                       (strip (get_text (Form.address form)))
                       (strip (get_text (Form.pin_code form))) k])
                    (spots db ++ new_spots (next_id (map ParkingSpot.id (spots db)))
                                           lid nm k)
                    (reservations db)) lid
                 = Some (ParkingLot.mk lid nm price
                           (strip (get_text (Form.address form)))
                           (strip (get_text (Form.pin_code form))) k)).
  { unfold get_lot. cbn [lots]. rewrite find_app_none.
    - cbn. now rewrite Z.eqb_refl.
    - destruct (find _ (lots db)) as [l|] eqn:F; [|reflexivity].
      apply find_some in F. destruct F as [Hl E]. apply Z.eqb_eq in E.
      apply (in_map ParkingLot.id) in Hl. apply next_id_above in Hl.
      fold lid in Hl. lia. }
  rewrite Hlot.
  assert (Hhd : hd_error (spots_by (mkDB (lots db ++
                    [ParkingLot.mk lid nm price
                       (strip (get_text (Form.address form)))
                       (strip (get_text (Form.pin_code form))) k])
                    (spots db ++ new_spots (next_id (map ParkingSpot.id (spots db)))
                                           lid nm k)
                    (reservations db)) lid A)
                = Some (ParkingSpot.mk
                          (next_id (map ParkingSpot.id (spots db)) + (1 - 1))
                          lid (spot_label nm 1) A)).
  { unfold spots_by. cbn [spots]. rewrite filter_app.
    rewrite (filter_nil _ (spots db)).
    - unfold new_spots. rewrite (range_head 1 (k + 1)) by lia.
      cbn [map app filter]. unfold in_lot_with at 1.
      cbn [ParkingSpot.lot_id ParkingSpot.status status_eqb].
      now rewrite Z.eqb_refl.
    - intros sp Hsp. unfold in_lot_with.
      destruct (Z.eqb_spec (ParkingSpot.lot_id sp) lid) as [E|E];
        [|reflexivity].
      apply (inv_lots db Hc) in Hsp. rewrite E in Hsp.
      apply next_id_above in Hsp. fold lid in Hsp. lia. }
  rewrite Hhd. reflexivity.
Qed.

Lemma first_booking_takes_spot_one_witness :
  reachable empty_db /\
  fst (book_spot mall_db a_driver 1 0 true) = Booked "MAL-001" "Mall".
Proof.
  split; [constructor|].
  exact (first_booking_takes_spot_one empty_db an_admin a_driver mall_form
           "Mall" 2 mall_db 0 reachable_empty eq_refl eq_refl eq_refl).
Defined.

(** X19. Once a lot is deleted it is gone for every handler: editing it
    answers 404, deleting it again answers 404, and booking on
    it answers that the lot could not be found; none of these changes the
    state. *)
Theorem deleted_lot_is_gone (db : DB) (adm : User.t) (lot_id : Z)
    (name : string) (db1 : DB) :
  delete_parking_lot db adm lot_id true = (LotDeleted name, db1) ->
  get_lot db1 lot_id = None /\
  filter (in_lot lot_id) (spots db1) = [] /\
  (forall a method form commit_ok,
     User.role a = admin ->
     edit_parking_lot db1 a lot_id method form commit_ok = (NotFound404, db1)) /\
  (forall a commit_ok,
     User.role a = admin ->
     delete_parking_lot db1 a lot_id commit_ok = (NotFound404, db1)) /\
  (forall u now commit_ok,
     User.role u = user ->
     active_reservation db1 (User.id u) = None ->
     book_spot db1 u lot_id now commit_ok = (LotNotFound, db1)).
Proof.
  intros H.
  destruct (delete_parking_lot_effect db adm lot_id true)
    as [[F _]|(lot & _ & _ & _ & E)]; [rewrite H in F; discriminate|].
  rewrite H in E. injection E as _ ->.
  assert (Hget : get_lot
            (mkDB (filter (fun l => negb (ParkingLot.id l =? lot_id)) (lots db))
                  (filter (fun sp => negb (in_lot lot_id sp)) (spots db))
                  (reservations db)) lot_id = None).
  { unfold get_lot. cbn [lots].
    destruct (find _ _) as [l|] eqn:F; [|reflexivity].
    apply find_some in F. destruct F as [F1 F2].
    apply filter_In in F1. destruct F1 as [_ F1].
    rewrite F2 in F1. discriminate. }
  split; [exact Hget|]. split; [|split; [|split]].
  - cbn [spots]. rewrite filter_in_lot_removed. now rewrite Z.eqb_refl.
  - intros a m f c Hr. unfold edit_parking_lot. rewrite Hr.
    cbn [role_eqb negb]. now rewrite Hget.
  - intros a c Hr. unfold delete_parking_lot. rewrite Hr.
    cbn [role_eqb negb]. now rewrite Hget.
  - intros u now c Hr Hn. unfold book_spot. rewrite Hr.
    cbn [role_eqb negb]. now rewrite Hn, Hget.
Qed.

Lemma deleted_lot_is_gone_witness :
  book_spot empty_db a_driver 1 0 true = (LotNotFound, empty_db).
Proof.
  exact (proj2 (proj2 (proj2 (proj2
           (deleted_lot_is_gone mall_db an_admin 1 "Mall" empty_db eq_refl))))
           a_driver 0 true eq_refl eq_refl).
Defined.

Lemma release_ignores_lots d d' u now commit_ok :
  spots d = spots d' -> reservations d = reservations d' ->
  fst (release_spot d u now commit_ok) = fst (release_spot d' u now commit_ok) /\
  reservations (snd (release_spot d u now commit_ok))
  = reservations (snd (release_spot d' u now commit_ok)) /\
  spots (snd (release_spot d u now commit_ok))
  = spots (snd (release_spot d' u now commit_ok)).
Proof.
  destruct d as [l s r], d' as [l' s' r']. cbn [spots reservations].
  intros <- <-. unfold release_spot, active_reservation, get_spot.
  cbn [spots reservations].
  destruct (negb _); [auto|].
  destruct (find _ r); [|auto].
  destruct commit_ok; auto.
Qed.

(** X20. A price edit does not reach a parked user's bill: after a
    successful booking on a lot of a reachable state, whatever edit is
    then applied to whatever lot, the user's open reservation still
    carries the price the lot had at the booking, and the release answers
    and writes the reservation and spot rows exactly as it would without
    the edit. *)
Theorem bill_ignores_price_edit (db : DB) (u adm : User.t)
    (lot_id t1 t2 edited_lot : Z) (lot : ParkingLot.t) (sn ln : string)
    (db1 : DB) (method : Method) (form : Form.t) (commit_ok : bool) :
  reachable db ->
  get_lot db lot_id = Some lot ->
  book_spot db u lot_id t1 true = (Booked sn ln, db1) ->
  let db2 := snd (edit_parking_lot db1 adm edited_lot method form commit_ok) in
  (exists r,
     active_reservation db2 (User.id u) = Some r /\
     active_reservation db1 (User.id u) = Some r /\
     ParkingReservation.parking_timestamp r = t1 /\
     ParkingReservation.parking_cost_per_unit_time r = ParkingLot.price lot) /\
  fst (release_spot db2 u t2 true) = fst (release_spot db1 u t2 true) /\
  reservations (snd (release_spot db2 u t2 true))
  = reservations (snd (release_spot db1 u t2 true)) /\
  spots (snd (release_spot db2 u t2 true))
  = spots (snd (release_spot db1 u t2 true)) /\
  exists cost, fst (release_spot db2 u t2 true) = Released (Some sn) (Some cost).
Proof.
  intros Hreach Hlot Hbook. pose proof (reachable_consistent db Hreach) as Hc.
  apply book_spot_booked in Hbook.
  destruct Hbook as (lot0 & sp & Hrole & Hnone & Hlot0 & Hsp & -> & ->).
  rewrite Hlot in Hlot0. injection Hlot0 as <-.
  destruct (first_available _ _ _ Hsp) as (Hin & _ & _).
  destruct (release_after_book db u t2 sp
              (next_id (map ParkingReservation.id (reservations db)))
              t1 (ParkingLot.price lot) Hrole Hnone (inv_keys db Hc) Hin)
    as (_ & Hrel & _).
  cbv zeta in Hrel.
  match type of Hrel with release_spot ?d _ _ _ = _ => set (d1 := d) in * end.
  cbv zeta.
  set (d2 := snd (edit_parking_lot d1 adm edited_lot method form commit_ok)).
  assert (Hs : spots d2 = spots d1 /\ reservations d2 = reservations d1).
  { unfold d2.
    destruct (edit_parking_lot_effect d1 adm edited_lot method form commit_ok)
      as [[_ ->]|(n' & p' & a' & c' & ->)]; split; reflexivity. }
  destruct Hs as [Hs Hr].
  destruct (release_ignores_lots d2 d1 u t2 true Hs Hr) as (E1 & E2 & E3).
  assert (Ha1 : active_reservation d1 (User.id u)
                = Some (ParkingReservation.mk
                          (next_id (map ParkingReservation.id (reservations db)))
                          (ParkingSpot.id sp) (User.id u) t1 None
                          (ParkingLot.price lot) None)).
  { unfold active_reservation, d1. cbn [reservations].
    unfold active_reservation in Hnone. rewrite (find_app_none _ _ _ Hnone).
    cbn [find]. unfold open_for_user. cbn. now rewrite Z.eqb_refl. }
  split.
  { eexists. split; [|split; [exact Ha1|split; reflexivity]].
    unfold active_reservation in *. now rewrite Hr. }
  split; [exact E1|]. split; [exact E2|]. split; [exact E3|].
  rewrite E1, Hrel. cbn [fst]. eexists. reflexivity.
Qed.

Lemma bill_ignores_price_edit_witness :
  reachable mall_db /\
  fst (release_spot
         (snd (edit_parking_lot parked_db an_admin 1 POST
                 (Form.mk (Some "Mall"%string) (number 99%Q)
                    (Some "1 Main Street"%string) (Some "560001"%string)
                    missing) true))
         a_driver 9000000000 true)
  = fst (release_spot parked_db a_driver 9000000000 true) /\
  fst (release_spot parked_db a_driver 9000000000 true)
  = Released (Some "MAL-001"%string) (Some 25%Q).
Proof.
  split; [exact mall_db_reachable|]. split; [|reflexivity].
  exact (proj1 (proj2 (bill_ignores_price_edit mall_db a_driver an_admin 1 0
           9000000000 1
           (ParkingLot.mk 1 "Mall" 10 "1 Main Street" "560001" 2)
           "MAL-001" "Mall" parked_db POST
           (Form.mk (Some "Mall"%string) (number 99%Q)
              (Some "1 Main Street"%string) (Some "560001"%string) missing)
           true mall_db_reachable eq_refl eq_refl))).
Defined.
